(** * SESTransport: admission-controlled dispatch of [lib/ses-transport/index.js]

    A shallow embedding of the [SESTransport] class: the constructor, [send],
    [_checkRatedQueue], [_checkSendingRate], [_sent] and the bookkeeping part
    of [_send], together with the slice of the Node.js event loop they talk
    to (outstanding executor callbacks, the [setImmediate] queue and the one
    [setTimeout] handle).

    Conventions.
    - A JavaScript number is [NaN], a finite rational, [+Infinity] or
      [-Infinity].  Counters and [Date.now()] readings are integers ([Z]).
    - Every [Date.now()] read is an explicit argument of the method that
      performs it; the event loop only promises that readings do not go
      backwards.
    - A job handed to [_send] sits in [executing] until its closure is
      called with an [Outcome].  Which stream events lead to a call, and with
      what, is the model of [getRawMessage] further down; the composer, the
      [LeWindows] stream and the SES client themselves are the environment.
      A job whose closure is never called stays in [executing] for good. *)

From Stdlib Require Import String ZArith QArith Qround List Bool Lia.
From Stdlib Require Import Permutation Sorted.
From Stdlib Require Import Ascii DecimalString.
Import ListNotations.

Local Open Scope Z_scope.

(** ** JavaScript numbers *)

Module JS.

Inductive number : Type :=
| NaN
| Fin (q : Q)
| PosInf
| NegInf.

Definition of_Z (z : Z) : number := Fin (inject_Z z).
Definition of_nat (n : nat) : number := of_Z (Z.of_nat n).

(** [a < b]; any comparison with [NaN] is false. *)
Definition lt (a b : number) : bool :=
  match a, b with
  | NaN, _ | _, NaN => false
  | Fin x, Fin y => negb (Qle_bool y x)
  | Fin _, PosInf => true
  | Fin _, NegInf => false
  | PosInf, _ => false
  | NegInf, NegInf => false
  | NegInf, _ => true
  end.

(** [a >= b] *)
Definition ge (a b : number) : bool :=
  match a, b with
  | NaN, _ | _, NaN => false
  | Fin x, Fin y => Qle_bool y x
  | Fin _, PosInf => false
  | Fin _, NegInf => true
  | PosInf, _ => true
  | NegInf, NegInf => true
  | NegInf, _ => false
  end.

(** [a <= b] *)
Definition le (a b : number) : bool := ge b a.

(** ToBoolean on a number: [NaN], [+0] and [-0] are falsy. *)
Definition truthy (n : number) : bool :=
  match n with
  | NaN => false
  | Fin q => negb (Qeq_bool q 0)
  | PosInf | NegInf => true
  end.

(** [a || b] on numbers. *)
Definition or_else (a b : number) : number := if truthy a then a else b.

(** The primitive values an option can hold.  Symbols, BigInts and objects
    are not modelled. *)
Inductive value : Type :=
| Undefined
| Null
| Boolean (b : bool)
| Number_ (n : number)
| String_ (s : string).

Definition finite (n : number) : bool :=
  match n with Fin _ => true | _ => false end.

End JS.

Import JS.

Arguments JS.lt : simpl never.
Arguments JS.ge : simpl never.
Arguments JS.le : simpl never.

(** ** Data model *)

Inductive Mail : Type := MailObj (id : nat).
Inductive Callback : Type := CallbackFn (id : nat).
Inductive Error : Type := Err (message : string).
Inductive Info : Type := Sent (messageId : string).

(** An entry of [this.pending]: the object literal [{ mail, callback }]. *)
Record Job : Type := { mail : Mail; callback : Callback }.

(** A live timer created by [setTimeout(fn, delay)]; [fn] is always
    [() => this._checkRatedQueue()]. *)
Inductive Timeout : Type := SetTimeout (delay : number).

Record Options : Type := {
  opt_maxConnections : value;
  opt_sendingRate : value
}.

Record SESTransport : Type := {
  maxConnections : number;
  connections : Z;
  sendingRate : number;
  sendingRateTTL : option Timeout;
  rateInterval : Z;
  rateMessages : list Z;
  pending : list Job
}.

Definition set_connections (c : Z) (t : SESTransport) : SESTransport :=
  {| maxConnections := maxConnections t; connections := c;
     sendingRate := sendingRate t; sendingRateTTL := sendingRateTTL t;
     rateInterval := rateInterval t; rateMessages := rateMessages t;
     pending := pending t |}.

Definition set_sendingRateTTL (h : option Timeout) (t : SESTransport) : SESTransport :=
  {| maxConnections := maxConnections t; connections := connections t;
     sendingRate := sendingRate t; sendingRateTTL := h;
     rateInterval := rateInterval t; rateMessages := rateMessages t;
     pending := pending t |}.

Definition set_rateMessages (l : list Z) (t : SESTransport) : SESTransport :=
  {| maxConnections := maxConnections t; connections := connections t;
     sendingRate := sendingRate t; sendingRateTTL := sendingRateTTL t;
     rateInterval := rateInterval t; rateMessages := l;
     pending := pending t |}.

Definition set_pending (p : list Job) (t : SESTransport) : SESTransport :=
  {| maxConnections := maxConnections t; connections := connections t;
     sendingRate := sendingRate t; sendingRateTTL := sendingRateTTL t;
     rateInterval := rateInterval t; rateMessages := rateMessages t;
     pending := p |}.

(** ** The methods of the class *)

(** [new SESTransport(options)] once both ceilings have been coerced. *)
Definition new_transport (maxC rate : number) : SESTransport :=
  {| maxConnections := maxC; connections := 0;
     sendingRate := rate; sendingRateTTL := None;
     rateInterval := 1000; rateMessages := [];
     pending := [] |}.

(** The [for] loop of [_checkSendingRate]: the number of leading entries
    that are not newer than [now - rateInterval]. *)
Fixpoint count_remove (now interval : Z) (msgs : list Z) : nat :=
  match msgs with
  | [] => O
  | m :: rest =>
      if m >? now - interval then O
      else S (count_remove now interval rest)
  end.

(** [if (remove) { this.rateMessages.splice(0, remove); }] *)
Definition splice_expired (now interval : Z) (msgs : list Z) : list Z :=
  let remove := count_remove now interval msgs in
  match remove with
  | O => msgs
  | S _ => skipn remove msgs
  end.

(** [Math.max(this.rateMessages[0] + 1001, now + 20)]; reading index 0 of
    an empty array gives [undefined], which turns the sum and the maximum
    into [NaN]. *)
Definition recheck_at (now : Z) (msgs : list Z) : number :=
  match msgs with
  | [] => NaN
  | oldest :: _ => of_Z (Z.max (oldest + 1001) (now + 20))
  end.

(** [now - delay], the second argument given to [setTimeout]. *)
Definition timeout_argument (now : Z) (delay : number) : number :=
  match delay with
  | Fin d => Fin (inject_Z now - d)
  | NaN => NaN
  | PosInf => NegInf
  | NegInf => PosInf
  end.

Definition _checkSendingRate (now : Z) (t : SESTransport) : bool * SESTransport :=
  let t := set_sendingRateTTL None t in
  let t := set_rateMessages (splice_expired now (rateInterval t) (rateMessages t)) t in
  if JS.lt (of_nat (length (rateMessages t))) (sendingRate t) then (true, t)
  else
    let delay := recheck_at now (rateMessages t) in
    (false, set_sendingRateTTL (Some (SetTimeout (timeout_argument now delay))) t).

(** The synchronous part of [_send]: two statements of bookkeeping, then
    the job is left with the composer and the SES client.  The second
    component lists the jobs handed over. *)
Definition _send (now : Z) (j : Job) (t : SESTransport) : SESTransport * list Job :=
  let t := set_connections (connections t + 1) t in
  let t := set_rateMessages (rateMessages t ++ [now]) t in
  (t, [j]).

Definition send (now now' : Z) (j : Job) (t : SESTransport) : SESTransport * list Job :=
  if JS.ge (of_Z (connections t)) (maxConnections t) then
    (set_pending (pending t ++ [j]) t, [])
  else
    let (ok, t) := _checkSendingRate now t in
    if negb ok then (set_pending (pending t ++ [j]) t, [])
    else _send now' j t.

Definition _checkRatedQueue (now now' : Z) (t : SESTransport) : SESTransport * list Job :=
  if JS.ge (of_Z (connections t)) (maxConnections t) then (t, [])
  else
    let (ok, t) := _checkSendingRate now t in
    if negb ok then (t, [])
    else
      match pending t with
      | [] => (t, [])
      | next :: rest => _send now' next (set_pending rest t)
      end.

Definition _sent (now now' : Z) (t : SESTransport) : SESTransport * list Job :=
  _checkRatedQueue now now' (set_connections (connections t - 1) t).

Section Construction.

(** The StringToNumber grammar of the language is left to the platform. *)
Variable StringToNumber : string -> number.

(** [Number(v)] *)
Definition Number (v : value) : number :=
  match v with
  | Undefined => NaN
  | Null => of_Z 0
  | Boolean true => of_Z 1
  | Boolean false => of_Z 0
  | Number_ n => n
  | String_ s => StringToNumber s
  end.

(** [options = options || {}]: a missing options object reads as one whose
    properties are all [undefined]. *)
Definition constructor (options : option Options) : SESTransport :=
  let options :=
    match options with
    | Some o => o
    | None => {| opt_maxConnections := Undefined; opt_sendingRate := Undefined |}
    end in
  new_transport
    (or_else (Number (opt_maxConnections options)) PosInf)
    (or_else (Number (opt_sendingRate options)) PosInf).

End Construction.

(** ** The event loop around a transport *)

(** The three calls [_send] makes of the closure it was given.
    [StreamFailed err]: [stream], the [LeWindows] stream the composer's
    output is piped into, emitted ['error'] and line 173 ran
    [callback(err)].  [SendFailed err]: [sendRawEmail] answered with an
    error, [callback(err)] of line 194.  [Delivered info]: line 202,
    [callback(null, info)].  An ['error'] of the composer's own stream is
    none of them: no listener of this file is on that stream. *)
Inductive Outcome : Type :=
| StreamFailed (err : Error)
| SendFailed (err : Error)
| Delivered (info : Info).

Inductive Args : Type :=
| ErrorArgs (err : Error)
| ResultArgs (info : Info).

Definition callback_args (o : Outcome) : Args :=
  match o with
  | StreamFailed err => ErrorArgs err
  | SendFailed err => ErrorArgs err
  | Delivered info => ResultArgs info
  end.

(** How a job met the admission check: let through by [send] itself, or
    pushed on [pending] and later shifted by [_checkRatedQueue]. *)
Inductive Route : Type := Immediately | Queued.

Definition is_queued (r : Route) : bool :=
  match r with Queued => true | Immediately => false end.

Definition is_immediate (r : Route) : bool := negb (is_queued r).

(** One call of [_send]: the job, the path that led to it and the
    timestamp pushed on [rateMessages]. *)
Record Admission : Type := {
  adm_job : Job;
  adm_route : Route;
  adm_time : Z
}.

(** [transport], [executing] and [immediates] are the run-time state: the
    object, the jobs whose [_send] callback has not been called yet, and
    the [setImmediate] queue.  [clock] is the latest [Date.now()] reading.
    [submitted], [admitted] and [invoked] only record history. *)
Record World : Type := {
  transport : SESTransport;
  executing : list Job;
  immediates : list (Callback * Args);
  clock : Z;
  submitted : list (Job * Route);
  admitted : list Admission;
  invoked : list (Callback * Args)
}.

Inductive Event : Type :=
| CallSend (now now' : Z) (j : Job)
| ExecutorDone (now now' : Z) (i : nat) (o : Outcome)
| TimerFires (now now' : Z)
| RunImmediate.

Definition route_of_send (started : list Job) : Route :=
  match started with
  | [] => Queued
  | _ :: _ => Immediately
  end.

Definition admission (r : Route) (now' : Z) (j : Job) : Admission :=
  {| adm_job := j; adm_route := r; adm_time := now' |}.

Definition remove_nth {A : Type} (i : nat) (l : list A) : list A :=
  firstn i l ++ skipn (S i) l.

(** Successive clock readings never decrease. *)
Definition ticks (w : World) (now now' : Z) : bool :=
  (clock w <=? now) && (now <=? now').

(** The world after a method returned [(t, started)]. *)
Definition settle (r : Route) (now' : Z) (res : SESTransport * list Job)
    (w : World) : World :=
  {| transport := fst res;
     executing := executing w ++ snd res;
     immediates := immediates w;
     clock := now';
     submitted := submitted w;
     admitted := admitted w ++ map (admission r now') (snd res);
     invoked := invoked w |}.

Definition record_submission (j : Job) (r : Route) (w : World) : World :=
  {| transport := transport w; executing := executing w;
     immediates := immediates w; clock := clock w;
     submitted := submitted w ++ [(j, r)];
     admitted := admitted w; invoked := invoked w |}.

(** The closure both [send] and [_checkRatedQueue] pass to [_send]:
    [(...args) => { setImmediate(() => callback(...args)); this._sent(); }],
    here up to the call of [_sent]. *)
Definition executor_returns (i : nat) (j : Job) (o : Outcome) (w : World) : World :=
  {| transport := transport w;
     executing := remove_nth i (executing w);
     immediates := immediates w ++ [(callback j, callback_args o)];
     clock := clock w;
     submitted := submitted w; admitted := admitted w; invoked := invoked w |}.

Definition timer_consumed (w : World) : World :=
  {| transport := set_sendingRateTTL None (transport w);
     executing := executing w; immediates := immediates w; clock := clock w;
     submitted := submitted w; admitted := admitted w; invoked := invoked w |}.

Definition step (e : Event) (w : World) : option World :=
  match e with
  | CallSend now now' j =>
      if ticks w now now' then
        let res := send now now' j (transport w) in
        Some (settle Immediately now' res
                (record_submission j (route_of_send (snd res)) w))
      else None
  | ExecutorDone now now' i o =>
      match nth_error (executing w) i with
      | Some j =>
          if ticks w now now' then
            let w := executor_returns i j o w in
            Some (settle Queued now' (_sent now now' (transport w)) w)
          else None
      | None => None
      end
  | TimerFires now now' =>
      match sendingRateTTL (transport w) with
      | Some _ =>
          if ticks w now now' then
            let w := timer_consumed w in
            Some (settle Queued now' (_checkRatedQueue now now' (transport w)) w)
          else None
      | None => None
      end
  | RunImmediate =>
      match immediates w with
      | c :: rest =>
          Some {| transport := transport w; executing := executing w;
                  immediates := rest; clock := clock w;
                  submitted := submitted w; admitted := admitted w;
                  invoked := invoked w ++ [c] |}
      | [] => None
      end
  end.

Fixpoint run (tr : list Event) (w : World) : option World :=
  match tr with
  | [] => Some w
  | e :: tr' =>
      match step e w with
      | Some w' => run tr' w'
      | None => None
      end
  end.

Definition boot (t : SESTransport) (epoch : Z) : World :=
  {| transport := t; executing := []; immediates := []; clock := epoch;
     submitted := []; admitted := []; invoked := [] |}.

(** [w] is reachable from a fresh transport with ceilings [maxC], [rate]. *)
Definition reachable (maxC rate : number) (w : World) : Prop :=
  exists epoch tr, run tr (boot (new_transport maxC rate) epoch) = Some w.

Definition jobA : Job := {| mail := MailObj 1; callback := CallbackFn 1 |}.
Definition jobB : Job := {| mail := MailObj 2; callback := CallbackFn 2 |}.
Definition jobC : Job := {| mail := MailObj 3; callback := CallbackFn 3 |}.
Definition jobD : Job := {| mail := MailObj 4; callback := CallbackFn 4 |}.


(** The configuration the transport is documented for: a ceiling is a
    positive integer or unbounded. *)
Definition ceiling_ok (n : number) : bool :=
  match n with
  | PosInf => true
  | Fin q => Qle_bool 1 q && Qeq_bool q (inject_Z (Qfloor q))
  | NaN | NegInf => false
  end.

(** ** Ceilings and options *)

(** [bounds n (Some m)]: the ceiling [n] compares with integers like the
    positive integer [m].  [bounds n None] says nothing about [n]. *)
Definition bounds (n : number) (m : option Z) : Prop :=
  match m with
  | None => True
  | Some m =>
      1 <= m /\
      (forall z, JS.lt (of_Z z) n = (z <? m)) /\
      (forall z, JS.ge (of_Z z) n = (m <=? z)) /\
      (forall z, JS.le (of_Z z) n = (z <=? m))
  end.

(** A documented ceiling: the integer [m], or unbounded. *)
Definition ceiling (n : number) (m : option Z) : Prop :=
  match m with
  | None => n = PosInf
  | Some _ => bounds n m
  end.

(** [Number(v)] is [NaN], [+0] or [-0]: the option is omitted, zero, or
    does not coerce to a nonzero number. *)
Definition no_ceiling (n : number) : Prop :=
  n = NaN \/ exists q, n = Fin q /\ (q == 0)%Q.

Definition option_maxConnections (options : option Options) : value :=
  match options with
  | Some o => opt_maxConnections o
  | None => Undefined
  end.

Definition option_sendingRate (options : option Options) : value :=
  match options with
  | Some o => opt_sendingRate o
  | None => Undefined
  end.

Definition started_from (StringToNumber : string -> number)
    (options : option Options) (w : World) : Prop :=
  exists epoch tr,
    run tr (boot (constructor StringToNumber options) epoch) = Some w.

(** ** What a call of a method can do to the transport *)

Definition same_config (t t' : SESTransport) : Prop :=
  maxConnections t' = maxConnections t /\
  sendingRate t' = sendingRate t /\
  rateInterval t' = rateInterval t.

(** Outcome of one admission check started on [t]. *)
Record checked (now : Z) (t : SESTransport) (ok : bool) (t' : SESTransport) : Prop := {
  chk_config : same_config t t';
  chk_connections : connections t' = connections t;
  chk_pending : pending t' = pending t;
  chk_log : rateMessages t' = splice_expired now (rateInterval t) (rateMessages t);
  chk_verdict : ok = JS.lt (of_nat (length (rateMessages t'))) (sendingRate t);
  chk_timer :
    sendingRateTTL t' =
    if ok then None
    else Some (SetTimeout (timeout_argument now (recheck_at now (rateMessages t'))))
}.

(** A job goes through [_send] on top of a successful check. *)
Record admitted_on (now now' : Z) (j : Job) (t t' : SESTransport) : Prop := {
  adm_config : same_config t t';
  adm_room : JS.ge (of_Z (connections t)) (maxConnections t) = false;
  adm_budget :
    JS.lt (of_nat (length (splice_expired now (rateInterval t) (rateMessages t))))
          (sendingRate t) = true;
  adm_connections : connections t' = connections t + 1;
  adm_log :
    rateMessages t' = splice_expired now (rateInterval t) (rateMessages t) ++ [now'];
  adm_timer : sendingRateTTL t' = None
}.

(** No job is started: nothing but pruning and the timer can have changed. *)
Record refused_on (now : Z) (t t' : SESTransport) : Prop := {
  ref_config : same_config t t';
  ref_connections : connections t' = connections t;
  ref_log :
    rateMessages t' = rateMessages t \/
    rateMessages t' = splice_expired now (rateInterval t) (rateMessages t);
  ref_cause :
    (JS.ge (of_Z (connections t)) (maxConnections t) = true /\
     sendingRateTTL t' = sendingRateTTL t /\ rateMessages t' = rateMessages t) \/
    (JS.ge (of_Z (connections t)) (maxConnections t) = false /\
     rateMessages t' = splice_expired now (rateInterval t) (rateMessages t) /\
     JS.lt (of_nat (length (rateMessages t'))) (sendingRate t) = false /\
     sendingRateTTL t' =
       Some (SetTimeout (timeout_argument now (recheck_at now (rateMessages t')))))
}.

(** A call that starts no job. *)
Record quiet (now : Z) (t t' : SESTransport) : Prop := {
  qt_config : same_config t t';
  qt_connections : connections t' = connections t;
  qt_log :
    rateMessages t' = rateMessages t \/
    rateMessages t' = splice_expired now (rateInterval t) (rateMessages t)
}.

(** The world in the middle of the closure given to [_send]: the
    [setImmediate] is queued and [_sent] has run [this.connections--]. *)
Definition released (i : nat) (j : Job) (o : Outcome) (w : World) : World :=
  {| transport := set_connections (connections (transport w) - 1) (transport w);
     executing := remove_nth i (executing w);
     immediates := immediates w ++ [(callback j, callback_args o)];
     clock := clock w;
     submitted := submitted w; admitted := admitted w; invoked := invoked w |}.

(** ** Invariants of the event loop *)

Definition in_window (s interval m : Z) : bool :=
  (s - interval <? m) && (m <=? s).

(** Admissions whose recorded timestamp lies in the window of length
    [rateInterval] that ends at [s]. *)
Definition window_count (s : Z) (w : World) : nat :=
  length (filter (fun a => in_window s (rateInterval (transport w)) (adm_time a))
                 (admitted w)).

Record accounted (maxC rate : number) (w : World) : Prop := {
  acc_max : maxConnections (transport w) = maxC;
  acc_rate : sendingRate (transport w) = rate;
  acc_interval : rateInterval (transport w) = 1000;
  acc_connections : connections (transport w) = Z.of_nat (length (executing w));
  acc_sorted : StronglySorted Z.le (rateMessages (transport w));
  acc_past : Forall (fun m => m <= clock w) (rateMessages (transport w));
  acc_history :
    exists dropped,
      map adm_time (admitted w) = dropped ++ rateMessages (transport w) /\
      Forall (fun m => m <= clock w - 1000) dropped
}.

Definition queued_jobs (w : World) : list Job :=
  map fst (filter (fun s => is_queued (snd s)) (submitted w)).

Definition drained_jobs (w : World) : list Job :=
  map adm_job (filter (fun a => is_queued (adm_route a)) (admitted w)).

Definition passed_jobs (w : World) : list Job :=
  map fst (filter (fun s => is_immediate (snd s)) (submitted w)).

Definition direct_jobs (w : World) : list Job :=
  map adm_job (filter (fun a => is_immediate (adm_route a)) (admitted w)).

(** Where the callback of every submitted job currently is. *)
Definition callbacks_held (w : World) : list Callback :=
  map callback (pending (transport w)) ++ map callback (executing w) ++
  map fst (immediates w) ++ map fst (invoked w).

Record disciplined (w : World) : Prop := {
  dis_queue : queued_jobs w = drained_jobs w ++ pending (transport w);
  dis_direct : passed_jobs w = direct_jobs w;
  dis_callbacks :
    Permutation (map (fun s => callback (fst s)) (submitted w)) (callbacks_held w)
}.

Definition Callback_eq_dec (a b : Callback) : {a = b} + {a <> b}.
Proof. decide equality. apply Nat.eq_dec. Defined.

Record within (mc mr : option Z) (w : World) : Prop := {
  wi_connections : forall m, mc = Some m -> connections (transport w) <= m;
  wi_log :
    forall m, mr = Some m ->
      Z.of_nat (length (rateMessages (transport w))) <= m;
  wi_window :
    forall m s, mr = Some m -> Z.of_nat (window_count s w) <= m
}.

(** A queued job always has something that will call [_checkRatedQueue]
    again: a job in flight or the recheck timer. *)
Definition live (w : World) : Prop :=
  pending (transport w) <> [] ->
  executing w <> [] \/ sendingRateTTL (transport w) <> None.

(** ** Statements under examination *)

(** The claim that admission follows submission order: whenever [b] was
    submitted after [a] and [b] has gone through [_send], so has [a], and
    not later. *)
Definition admitted_in_submission_order (w : World) : Prop :=
  forall (i k : nat) (a b : Job),
    (i < k)%nat ->
    nth_error (map fst (submitted w)) i = Some a ->
    nth_error (map fst (submitted w)) k = Some b ->
    forall p, nth_error (map adm_job (admitted w)) p = Some b ->
    exists p', (p' <= p)%nat /\ nth_error (map adm_job (admitted w)) p' = Some a.

(** The delay as documented: the time until the oldest surviving entry
    leaves the window, [oldest + windowMs - now], but at least 20 ms. *)
Definition documented_delay (oldest interval now : Z) : Z :=
  Z.max (oldest + interval - now) 20.

(** The claim that a call drains until exhaustion: once it has returned, a
    second call made at once finds nothing it could start. *)
Definition drains_until_exhausted (now now' : Z) (t : SESTransport) : Prop :=
  snd (_checkRatedQueue now' now' (fst (_checkRatedQueue now now' t))) = [].

(** ** Sample executions *)

Definition no_parser (s : string) : number := NaN.

Definition one_per_second : Options :=
  {| opt_maxConnections := Undefined; opt_sendingRate := Number_ (of_Z 1) |}.

Definition two_per_second : Options :=
  {| opt_maxConnections := Number_ (of_Z 2); opt_sendingRate := Number_ (of_Z 2) |}.

Definition unbounded_two_per_second : Options :=
  {| opt_maxConnections := Undefined; opt_sendingRate := Number_ (of_Z 2) |}.

(** The recheck timer firing once every millisecond from [from]. *)
Fixpoint rechecks (from : Z) (n : nat) : list Event :=
  match n with
  | O => []
  | S n' => TimerFires from from :: rechecks (from + 1) n'
  end.

(** A and B are submitted at time 0 under a rate of one per second; the
    recheck timer keeps firing; C is submitted when the clock reads 1000. *)
Definition overtaking_trace : list Event :=
  [CallSend 0 0 jobA; CallSend 0 0 jobB] ++ rechecks 1 999 ++
  [CallSend 1000 1000 jobC].

Definition after_trace (options : Options) (tr : list Event) : World :=
  let w0 := boot (constructor no_parser (Some options)) 0 in
  match run tr w0 with
  | Some w => w
  | None => w0
  end.

Definition overtaken_world : World :=
  Eval vm_compute in after_trace one_per_second overtaking_trace.

(** A world with a job in flight, a job waiting and a live recheck timer:
    A and B are let through at time 0 under a ceiling of two, C is refused
    on concurrency, A completes at time 5 and C is then refused on rate. *)
Definition busy_trace : list Event :=
  [CallSend 0 0 jobA; CallSend 0 1 jobB; CallSend 2 2 jobC;
   ExecutorDone 5 5 0 (SendFailed (Err "Throttling"))].

Definition busy_world : World :=
  Eval vm_compute in after_trace two_per_second busy_trace.

(** One job admitted at time 0 under [sendingRate = 1]. *)
Definition throttled_transport : SESTransport :=
  Eval vm_compute in transport (after_trace one_per_second [CallSend 0 0 jobA]).

(** A, B, C and D are submitted at time 0 under a rate of two per second:
    A and B go through, C and D wait for the recheck timer. *)
Definition backlog_trace : list Event :=
  [CallSend 0 0 jobA; CallSend 0 0 jobB; CallSend 0 0 jobC; CallSend 0 0 jobD].

Definition backlog_world : World :=
  Eval vm_compute in after_trace unbounded_two_per_second backlog_trace.

(** ** The rest of [_send]: what is logged, composed and reported *)

(** [envelope.to]: absent, one address, or an array of addresses. *)
Inductive EnvelopeTo : Type :=
| ToMissing
| ToOne (address : string)
| ToList (addresses : list string).

(** [[].concat(envelope.to || [])]: the empty string is falsy, an array is
    spread, anything else becomes the single element. *)
Definition concat_to (to : EnvelopeTo) : list string :=
  match to with
  | ToMissing => []
  | ToOne EmptyString => []
  | ToOne address => [address]
  | ToList addresses => addresses
  end.

(** An integer count turned into a string by [+]. *)
Definition decimal (n : nat) : string :=
  NilZero.string_of_uint (Nat.to_uint n).

(** [recipients] as it is when the log line is written:
    [if (recipients.length > 3)
       recipients.push('...and ' + recipients.splice(2).length + ' more')].
    [splice(2)] takes everything from index 2 out of the array and returns
    it before [push] appends the summary. *)
Definition logged_recipients (to : EnvelopeTo) : list string :=
  let recipients := concat_to to in
  if (3 <? length recipients)%nat then
    let removed := skipn 2 recipients in
    let recipients := firstn 2 recipients in
    recipients ++ [("...and " ++ decimal (length removed) ++ " more")%string]
  else recipients.

(** [recipients.join(', ')] *)
Definition join_recipients (recipients : list string) : string :=
  String.concat ", " recipients.

(** [mail.data._dkim]; [dkim_other] stands for its other properties. *)
Record Dkim : Type := {
  skipFields : value;
  dkim_other : list (string * string)
}.

(** ToBoolean on the primitive values. *)
Definition truthy_value (v : value) : bool :=
  match v with
  | Undefined | Null => false
  | Boolean b => b
  | Number_ n => truthy n
  | String_ EmptyString => false
  | String_ _ => true
  end.

Definition is_string (v : value) : bool :=
  match v with String_ _ => true | _ => false end.

(** The first statements of [getRawMessage]: [mail.data._dkim] after
    [if (!mail.data._dkim) mail.data._dkim = {}] and the update of
    [skipFields]. *)
Definition skip_date_and_id (dkim : option Dkim) : Dkim :=
  let dkim :=
    match dkim with
    | Some d => d
    | None => {| skipFields := Undefined; dkim_other := [] |}
    end in
  if truthy_value (skipFields dkim) && is_string (skipFields dkim) then
    match skipFields dkim with
    | String_ s =>
        {| skipFields := String_ (s ++ ":date:message-id"); dkim_other := dkim_other dkim |}
    | _ => dkim
    end
  else {| skipFields := String_ "date:message-id"; dkim_other := dkim_other dkim |}.

Definition Buffer : Type := list Byte.byte.

(** [Buffer.concat(list, totalLength)] of the platform: the buffers one
    after the other, cut or zero-filled to [totalLength] bytes. *)
Definition Buffer_concat (buffers : list Buffer) (totalLength : nat) : Buffer :=
  let all := List.concat buffers in
  firstn totalLength (all ++ repeat Byte.x00 (totalLength - length all)).

(** One ['readable'] event: [stream.read()] is called until it returns
    [null]; [available] are the chunks it returns. *)
Definition on_readable (available : list Buffer) (st : list Buffer * nat)
    : list Buffer * nat :=
  fold_left (fun st chunk => (fst st ++ [chunk], (snd st + length chunk)%nat))
            available st.

(** [chunks] and [chunklen] when ['end'] is emitted. *)
Definition read_stream (events : list (list Buffer)) : list Buffer * nat :=
  fold_left (fun st available => on_readable available st) events ([], O).

(** [Buffer.concat(chunks, chunklen)], the value given to [next]. *)
Definition raw_message (events : list (list Buffer)) : Buffer :=
  Buffer_concat (fst (read_stream events)) (snd (read_stream events)).

(** A JavaScript object as the list of its own properties. *)
Definition Obj (V : Type) : Type := list (string * V).

Fixpoint obj_get {V : Type} (key : string) (o : Obj V) : option V :=
  match o with
  | [] => None
  | (k, v) :: rest => if String.eqb k key then Some v else obj_get key rest
  end.

(** [o[key] = v]: an existing property keeps its place, a new one is added
    last. *)
Fixpoint obj_set {V : Type} (key : string) (v : V) (o : Obj V) : Obj V :=
  match o with
  | [] => [(key, v)]
  | (k, v0) :: rest =>
      if String.eqb k key then (k, v) :: rest else (k, v0) :: obj_set key v rest
  end.

(** [o[key] = v] on an object whose prototype is [Object.prototype]: the
    key [__proto__] runs the setter it inherits and makes no own property. *)
Definition obj_assign {V : Type} (key : string) (v : V) (o : Obj V) : Obj V :=
  if String.eqb key "__proto__" then o else obj_set key v o.

(** The values of the request given to [sendRawEmail]. *)
Inductive SesValue : Type :=
| RawMessageValue (data : Buffer)
| SourceValue (from : string)
| DestinationsValue (to : EnvelopeTo)
| CallerValue (handle : nat).

(** [sesMessage] as passed to [this.ses.sendRawEmail]: the three
    properties of the literal, then every own property of
    [mail.data.ses || {}] assigned over it. *)
Definition sesMessage (raw : Buffer) (from : string) (to : EnvelopeTo)
    (ses : option (Obj SesValue)) : Obj SesValue :=
  let message :=
    [("RawMessage"%string, RawMessageValue raw);
     ("Source"%string, SourceValue from);
     ("Destinations"%string, DestinationsValue to)] in
  let options := match ses with Some o => o | None => [] end in
  fold_left (fun message kv => obj_assign (fst kv) (snd kv) message) options message.

(** [this.ses.config], with its [region] if it has one. *)
Record SesConfig : Type := { region : option string }.

(** [this.ses.config && this.ses.config.region || 'us-east-1'], then
    [if (region === 'us-east-1') region = 'email']. *)
Definition region_name (config : option SesConfig) : string :=
  let region :=
    match config with
    | Some c =>
        match region c with
        | Some EmptyString | None => "us-east-1"%string
        | Some r => r
        end
    | None => "us-east-1"%string
    end in
  if String.eqb region "us-east-1" then "email"%string else region.

(** [/@/.test(s)] *)
Fixpoint has_at (s : string) : bool :=
  match s with
  | EmptyString => false
  | String c rest => Ascii.eqb c "@" || has_at rest
  end.

(** The [messageId] handed to the callback on success. *)
Definition reported_messageId (config : option SesConfig) (MessageId : string) : string :=
  ("<" ++ MessageId
   ++ (if negb (has_at MessageId)
       then "@" ++ region_name config ++ ".amazonses.com"
       else EmptyString)
   ++ ">")%string.

(** ** [getRawMessage]: the listeners and the calls of [next] *)

(** The two streams of line 147: the one [mail.message.createReadStream()]
    returns, and the [LeWindows] stream it is piped into.  [pipe] returns
    its destination, so the [stream] of lines 151-163 is the second. *)
Inductive Emitter : Type := ComposerStream | PipedStream.

Inductive Emission : Type :=
| Readable (available : list Buffer)
| ErrorEvent (err : Error)
| EndEvent.

(** [next(err)] or [next(null, raw)]. *)
Inductive NextCall : Type :=
| NextError (err : Error)
| NextRaw (raw : Buffer).

(** [chunks] and [chunklen], and whether the [once] listeners for
    ['error'] and ['end'] are still on [stream]. *)
Record Listeners : Type := {
  heard : list Buffer * nat;
  error_listener : bool;
  end_listener : bool
}.

Definition listening : Listeners :=
  {| heard := ([], O); error_listener := true; end_listener := true |}.

(** One event and the calls of [next] it leads to.  Lines 151-163 put
    every listener on [stream]; nothing the composer's stream emits reaches
    one of them. *)
Definition emit (from : Emitter) (e : Emission) (l : Listeners)
    : Listeners * list NextCall :=
  match from, e with
  | ComposerStream, _ => (l, [])
  | PipedStream, Readable available =>
      ({| heard := on_readable available (heard l);
          error_listener := error_listener l;
          end_listener := end_listener l |}, [])
  | PipedStream, ErrorEvent err =>
      if error_listener l then
        ({| heard := heard l; error_listener := false;
            end_listener := end_listener l |}, [NextError err])
      else (l, [])
  | PipedStream, EndEvent =>
      if end_listener l then
        ({| heard := heard l; error_listener := error_listener l;
            end_listener := false |},
         [NextRaw (Buffer_concat (fst (heard l)) (snd (heard l)))])
      else (l, [])
  end.

(** The calls of [next] over a sequence of events, in order. *)
Definition getRawMessage (events : list (Emitter * Emission))
    : Listeners * list NextCall :=
  fold_left
    (fun st ev =>
       (fst (emit (fst ev) (snd ev) (fst st)),
        snd st ++ snd (emit (fst ev) (snd ev) (fst st))))
    events (listening, []).

(** An event that reaches neither the ['error'] nor the ['end'] listener. *)
Definition unheard (ev : Emitter * Emission) : bool :=
  match ev with
  | (ComposerStream, _) => true
  | (PipedStream, Readable _) => true
  | (PipedStream, _) => false
  end.

(** The answer of [sendRawEmail]. *)
Inductive SesReply : Type :=
| SesError (err : Error)
| SesData (MessageId : string).

(** Lines 166-210: what the closure of [_send] is called with for one call
    of [next]; after [next(err)] the SES client is not asked. *)
Definition reported (config : option SesConfig) (call : NextCall)
    (reply : SesReply) : Outcome :=
  match call with
  | NextError err => StreamFailed err
  | NextRaw raw =>
      match reply with
      | SesError err => SendFailed err
      | SesData MessageId => Delivered (Sent (reported_messageId config MessageId))
      end
  end.

(** A trace in which no job's closure is ever called. *)
Definition no_report (tr : list Event) : bool :=
  forallb (fun e => match e with ExecutorDone _ _ _ _ => false | _ => true end) tr.

(** ** Further invariants of the event loop *)

(** An outstanding recheck timer stands for a full rate log and carries a
    negative delay. *)
Definition timer_sound (mr : option Z) (t : SESTransport) : Prop :=
  forall h, sendingRateTTL t = Some h ->
    (exists d, h = SetTimeout (of_Z d) /\ d <= -20) /\
    JS.lt (of_nat (length (rateMessages t))) (sendingRate t) = false /\
    (forall m, mr = Some m -> Z.of_nat (length (rateMessages t)) = m).

(** With no rate ceiling a job waits only while no connection is free, and
    admission follows submission. *)
Definition work_conserving (w : World) : Prop :=
  pending (transport w) <> [] ->
  JS.ge (of_Z (connections (transport w))) (maxConnections (transport w)) = true.

Definition globally_fifo (w : World) : Prop :=
  map adm_job (admitted w) ++ pending (transport w) = map fst (submitted w).

(** Every job of [pending] waits for a connection, seen one release
    ahead: it holds before [this.connections--] has been made up for. *)
Definition slot_owed (w : World) : Prop :=
  pending (transport w) <> [] ->
  JS.ge (of_Z (connections (transport w) + 1)) (maxConnections (transport w)) = true.

(** B, the last job in flight of the busy world, fails too: C is left
    waiting with nothing in flight. *)
Definition stalled_trace : list Event :=
  busy_trace ++ [ExecutorDone 7 7 0 (SendFailed (Err "Throttling"))].

Definition stalled_world : World :=
  Eval vm_compute in after_trace two_per_second stalled_trace.

Definition one_at_a_time : Options :=
  {| opt_maxConnections := Number_ (of_Z 1); opt_sendingRate := Undefined |}.

(** A and B are submitted, B waits for the single connection, A fails and
    B is started. *)
Definition serial_trace : list Event :=
  [CallSend 0 0 jobA; CallSend 1 1 jobB;
   ExecutorDone 5 5 0 (StreamFailed (Err "EPIPE")); RunImmediate;
   CallSend 6 6 jobC].

Definition serial_world : World :=
  Eval vm_compute in after_trace one_at_a_time serial_trace.

(** * Properties *)

(** ** Comparisons of counters with a ceiling *)

Lemma Qle_bool_inject_r (q : Q) (m z : Z) :
  (q == inject_Z m)%Q -> Qle_bool q (inject_Z z) = (m <=? z).
Proof.
  intros Hq.
  destruct (Z.leb_spec m z) as [Hle | Hgt].
  - apply Qle_bool_iff. rewrite Hq. now rewrite <- Zle_Qle.
  - destruct (Qle_bool q (inject_Z z)) eqn:E; [|reflexivity].
    apply Qle_bool_iff in E. rewrite Hq, <- Zle_Qle in E. lia.
Qed.

Lemma Qle_bool_inject_l (q : Q) (m z : Z) :
  (q == inject_Z m)%Q -> Qle_bool (inject_Z z) q = (z <=? m).
Proof.
  intros Hq.
  destruct (Z.leb_spec z m) as [Hle | Hgt].
  - apply Qle_bool_iff. rewrite Hq. now rewrite <- Zle_Qle.
  - destruct (Qle_bool (inject_Z z) q) eqn:E; [|reflexivity].
    apply Qle_bool_iff in E. rewrite Hq, <- Zle_Qle in E. lia.
Qed.

Lemma ceiling_bounds (n : number) (m : option Z) : ceiling n m -> bounds n m.
Proof. destruct m; cbn; auto. Qed.

Lemma ceiling_ok_ceiling (n : number) :
  ceiling_ok n = true -> exists m, ceiling n m.
Proof.
  destruct n as [ | q | | ]; simpl; try discriminate.
  - intros H. apply andb_true_iff in H as [H1 Hw].
    apply Qeq_bool_iff in Hw.
    exists (Some (Qfloor q)). simpl.
    assert (Hone : Qle_bool (inject_Z 1) q = true) by exact H1.
    rewrite (Qle_bool_inject_l q (Qfloor q) 1 Hw) in Hone.
    split; [lia|]. repeat split; intros z; unfold JS.le, JS.lt, JS.ge, of_Z.
    + rewrite (Qle_bool_inject_r q (Qfloor q) z Hw).
      destruct (Z.leb_spec (Qfloor q) z), (Z.ltb_spec z (Qfloor q)); simpl; lia || reflexivity.
    + apply (Qle_bool_inject_r q (Qfloor q) z Hw).
    + apply (Qle_bool_inject_l q (Qfloor q) z Hw).
  - intros _. exists None. reflexivity.
Qed.

(** ** The rate log *)

Lemma splice_expired_skipn (now interval : Z) (msgs : list Z) :
  splice_expired now interval msgs = skipn (count_remove now interval msgs) msgs.
Proof.
  unfold splice_expired. destruct (count_remove now interval msgs); reflexivity.
Qed.

Lemma count_remove_expired (now interval : Z) (msgs : list Z) :
  Forall (fun m => m <= now - interval)
         (firstn (count_remove now interval msgs) msgs).
Proof.
  induction msgs as [ | m rest IH]; simpl; [constructor|].
  destruct (Z.gtb_spec m (now - interval)); simpl; constructor; auto; lia.
Qed.

Lemma splice_expired_head (now interval : Z) (msgs : list Z) :
  match splice_expired now interval msgs with
  | [] => True
  | m :: _ => now - interval < m
  end.
Proof.
  rewrite splice_expired_skipn.
  induction msgs as [ | m rest IH]; simpl; [exact I|].
  destruct (Z.gtb_spec m (now - interval)); simpl; [lia | exact IH].
Qed.

Lemma splice_expired_split (now interval : Z) (msgs : list Z) :
  exists dropped,
    msgs = dropped ++ splice_expired now interval msgs /\
    Forall (fun m => m <= now - interval) dropped.
Proof.
  exists (firstn (count_remove now interval msgs) msgs). split.
  - rewrite splice_expired_skipn. symmetry. apply firstn_skipn.
  - apply count_remove_expired.
Qed.

Lemma splice_expired_length (now interval : Z) (msgs : list Z) :
  (length (splice_expired now interval msgs) <= length msgs)%nat.
Proof.
  destruct (splice_expired_split now interval msgs) as (d & E & _).
  rewrite E at 2. rewrite length_app. lia.
Qed.

Lemma splice_expired_Forall (P : Z -> Prop) (now interval : Z) (msgs : list Z) :
  Forall P msgs -> Forall P (splice_expired now interval msgs).
Proof.
  intros H. destruct (splice_expired_split now interval msgs) as (d & E & _).
  rewrite E in H. apply Forall_app in H. tauto.
Qed.

Lemma StronglySorted_app_inv_r {A : Type} (R : A -> A -> Prop) (l1 l2 : list A) :
  StronglySorted R (l1 ++ l2) -> StronglySorted R l2.
Proof.
  induction l1 as [ | a l1 IH]; simpl; intros H; [exact H|].
  inversion H; subst. auto.
Qed.

Lemma StronglySorted_snoc (l : list Z) (x : Z) :
  StronglySorted Z.le l -> Forall (fun m => m <= x) l ->
  StronglySorted Z.le (l ++ [x]).
Proof.
  induction l as [ | a l IH]; simpl; intros Hs Hb.
  - repeat constructor.
  - inversion Hs; subst. inversion Hb; subst.
    constructor; [auto|]. apply Forall_app. split; [assumption|].
    constructor; [assumption | constructor].
Qed.

Lemma splice_expired_sorted (now interval : Z) (msgs : list Z) :
  StronglySorted Z.le msgs -> StronglySorted Z.le (splice_expired now interval msgs).
Proof.
  intros H. destruct (splice_expired_split now interval msgs) as (d & E & _).
  rewrite E in H. eapply StronglySorted_app_inv_r; eauto.
Qed.

(** On an ordered log the loop drops every expired entry, not only a run
    of leading ones. *)
Lemma splice_expired_filter (now interval : Z) (msgs : list Z) :
  StronglySorted Z.le msgs ->
  splice_expired now interval msgs = filter (fun m => m >? now - interval) msgs.
Proof.
  rewrite splice_expired_skipn.
  induction msgs as [ | m rest IH]; simpl; intros Hs; [reflexivity|].
  inversion Hs as [ | ? ? Hrest Hall]; subst.
  destruct (Z.gtb_spec m (now - interval)) as [Hnew | Hold]; simpl.
  - f_equal. symmetry. apply forallb_filter_id.
    apply forallb_forall. intros x Hx.
    rewrite Forall_forall in Hall. specialize (Hall x Hx).
    apply Z.gtb_lt. lia.
  - auto.
Qed.

(** ** What each method does to the transport *)

Lemma _checkSendingRate_checked (now : Z) (t : SESTransport) :
  checked now t (fst (_checkSendingRate now t)) (snd (_checkSendingRate now t)).
Proof.
  unfold _checkSendingRate. cbn.
  destruct (JS.lt _ _) eqn:E; cbn; constructor; cbn;
    try rewrite E; repeat split; reflexivity.
Qed.

Lemma same_config_refl (t : SESTransport) : same_config t t.
Proof. repeat split. Qed.

Lemma send_cases (now now' : Z) (j : Job) (t : SESTransport) :
  let t' := fst (send now now' j t) in
  let started := snd (send now now' j t) in
  (started = [j] /\ pending t' = pending t /\ admitted_on now now' j t t') \/
  (started = [] /\ pending t' = pending t ++ [j] /\ refused_on now t t').
Proof.
  unfold send.
  destruct (JS.ge (of_Z (connections t)) (maxConnections t)) eqn:Hroom.
  - right. cbn. split; [reflexivity|]. split; [reflexivity|].
    constructor; cbn; auto; try (repeat split; reflexivity).
  - pose proof (_checkSendingRate_checked now t) as H.
    destruct (_checkSendingRate now t) as [ok t1]. cbn in H.
    destruct H as [[Hm [Hr Hi]] Hc Hp Hl Hv Ht].
    destruct ok; cbn.
    + left. split; [reflexivity|]. split; [assumption|].
      constructor; cbn; try congruence; try (repeat split; assumption).
    + right. split; [reflexivity|]. split; [congruence|].
      constructor; cbn; auto; try (repeat split; assumption);
        try (right; repeat split; auto; congruence).
Qed.

Lemma _checkRatedQueue_cases (now now' : Z) (t : SESTransport) :
  let t' := fst (_checkRatedQueue now now' t) in
  let started := snd (_checkRatedQueue now now' t) in
  (exists next, started = [next] /\ pending t = next :: pending t' /\
                admitted_on now now' next t t') \/
  (started = [] /\ pending t' = pending t /\
   (refused_on now t t' \/
    (pending t = [] /\ same_config t t' /\ connections t' = connections t /\
     JS.ge (of_Z (connections t)) (maxConnections t) = false /\
     rateMessages t' = splice_expired now (rateInterval t) (rateMessages t) /\
     sendingRateTTL t' = None))).
Proof.
  unfold _checkRatedQueue.
  destruct (JS.ge (of_Z (connections t)) (maxConnections t)) eqn:Hroom.
  - right. cbn. split; [reflexivity|]. split; [reflexivity|]. left.
    constructor; cbn; auto; try (repeat split; reflexivity).
  - pose proof (_checkSendingRate_checked now t) as H.
    destruct (_checkSendingRate now t) as [ok t1]. cbn in H.
    destruct H as [[Hm [Hr Hi]] Hc Hp Hl Hv Ht].
    destruct ok; cbn.
    + destruct (pending t1) as [ | next rest] eqn:Hq; cbn.
      * right. split; [reflexivity|]. split; [congruence|]. right.
        repeat split; try congruence.
      * left. exists next. split; [reflexivity|]. split; [congruence|].
        constructor; cbn; try congruence; try (repeat split; assumption).
    + right. split; [reflexivity|]. split; [congruence|]. left.
      constructor; cbn; auto; try (repeat split; assumption);
        try (right; repeat split; auto; congruence).
Qed.

Lemma refused_on_quiet (now : Z) (t t' : SESTransport) :
  refused_on now t t' -> quiet now t t'.
Proof. intros [Hc Hn Hl _]. constructor; assumption. Qed.

Lemma _checkRatedQueue_idle_iff (now now' : Z) (t : SESTransport) :
  (length (snd (_checkRatedQueue now now' t)) <= 1)%nat /\
  pending t = snd (_checkRatedQueue now now' t) ++ pending (fst (_checkRatedQueue now now' t)) /\
  (snd (_checkRatedQueue now now' t) = [] <->
   JS.ge (of_Z (connections t)) (maxConnections t) = true \/
   fst (_checkSendingRate now t) = false \/
   pending t = []).
Proof.
  unfold _checkRatedQueue.
  destruct (JS.ge (of_Z (connections t)) (maxConnections t)) eqn:Hroom; cbn.
  - repeat split; auto.
  - pose proof (_checkSendingRate_checked now t) as [_ _ Hp _ _ _].
    destruct (_checkSendingRate now t) as [ok t1]. cbn in Hp. cbn.
    destruct ok; cbn.
    + rewrite <- Hp. destruct (pending t1) as [ | next rest] eqn:Hq; cbn.
      * repeat split; auto.
      * repeat split; auto; try discriminate.
        intros [H | [H | H]]; discriminate.
    + rewrite <- Hp. repeat split; auto.
Qed.

(** ** Accounting invariants of the event loop *)

Lemma Forall_le_weaken (l : list Z) (a b : Z) :
  a <= b -> Forall (fun m => m <= a) l -> Forall (fun m => m <= b) l.
Proof.
  intros Hab H. eapply Forall_impl; [|exact H]. cbn. intros; lia.
Qed.

Lemma accounted_boot (maxC rate : number) (epoch : Z) :
  accounted maxC rate (boot (new_transport maxC rate) epoch).
Proof.
  constructor; cbn; try reflexivity; try constructor.
  exists []. split; [reflexivity | constructor].
Qed.

Lemma accounted_quiet (maxC rate : number) (r : Route) (now now' : Z)
    (w : World) (t' : SESTransport) :
  accounted maxC rate w -> clock w <= now -> now <= now' ->
  quiet now (transport w) t' ->
  accounted maxC rate (settle r now' (t', []) w).
Proof.
  intros [Hm Hr Hi Hc Hs Hp (dropped & Hh & Hd)] Hnow Hnow' [(Qm & Qr & Qi) Qc Ql].
  destruct (splice_expired_split now (rateInterval (transport w))
              (rateMessages (transport w))) as (d2 & Hsplit & Hd2).
  rewrite Hi in Hd2.
  constructor; cbn; try congruence.
  - rewrite app_nil_r. congruence.
  - destruct Ql as [-> | ->]; [assumption | now apply splice_expired_sorted].
  - apply Forall_le_weaken with (a := clock w); [lia|].
    destruct Ql as [-> | ->]; [assumption | now apply splice_expired_Forall].
  - rewrite app_nil_r. destruct Ql as [-> | ->].
    + exists dropped. split; [assumption|].
      apply Forall_le_weaken with (a := clock w - 1000); [lia | assumption].
    + exists (dropped ++ d2). split.
      * rewrite <- app_assoc, <- Hsplit. assumption.
      * apply Forall_app. split.
        -- apply Forall_le_weaken with (a := clock w - 1000); [lia | assumption].
        -- apply Forall_le_weaken with (a := now - 1000); [lia | assumption].
Qed.

Lemma accounted_admit (maxC rate : number) (r : Route) (now now' : Z) (j : Job)
    (w : World) (t' : SESTransport) :
  accounted maxC rate w -> clock w <= now -> now <= now' ->
  admitted_on now now' j (transport w) t' ->
  accounted maxC rate (settle r now' (t', [j]) w).
Proof.
  intros [Hm Hr Hi Hc Hs Hp (dropped & Hh & Hd)] Hnow Hnow'
         [(Qm & Qr & Qi) _ _ Qc Ql _].
  destruct (splice_expired_split now (rateInterval (transport w))
              (rateMessages (transport w))) as (d2 & Hsplit & Hd2).
  rewrite Hi in Hd2.
  assert (Hkept : Forall (fun m => m <= now')
            (splice_expired now (rateInterval (transport w)) (rateMessages (transport w)))).
  { apply splice_expired_Forall.
    apply Forall_le_weaken with (a := clock w); [lia | assumption]. }
  constructor; cbn; try congruence.
  - rewrite Qc, Hc, length_app. cbn. lia.
  - rewrite Ql. apply StronglySorted_snoc; [|assumption].
    now apply splice_expired_sorted.
  - rewrite Ql. apply Forall_app. split; [assumption|].
    constructor; [lia | constructor].
  - exists (dropped ++ d2). split.
    + rewrite map_app, Hh, Ql. cbn. rewrite Hsplit at 1.
      now rewrite !app_assoc.
    + apply Forall_app. split.
      * apply Forall_le_weaken with (a := clock w - 1000); [lia | assumption].
      * apply Forall_le_weaken with (a := now - 1000); [lia | assumption].
Qed.

Lemma nth_error_split_at {A : Type} (l : list A) (i : nat) (x : A) :
  nth_error l i = Some x -> l = firstn i l ++ x :: skipn (S i) l.
Proof.
  revert i. induction l as [ | a l IH]; intros [ | i] H; cbn in *; try discriminate.
  - now inversion H.
  - f_equal. now apply IH.
Qed.

Lemma remove_nth_length {A : Type} (l : list A) (i : nat) (x : A) :
  nth_error l i = Some x -> length l = S (length (remove_nth i l)).
Proof.
  intros H. rewrite (nth_error_split_at l i x H) at 1.
  unfold remove_nth. rewrite !length_app. cbn. lia.
Qed.

Lemma remove_nth_Permutation {A : Type} (l : list A) (i : nat) (x : A) :
  nth_error l i = Some x -> Permutation l (x :: remove_nth i l).
Proof.
  intros H. rewrite (nth_error_split_at l i x H) at 1.
  unfold remove_nth. symmetry. apply Permutation_middle.
Qed.

Lemma step_ExecutorDone (now now' : Z) (i : nat) (o : Outcome) (w w' : World) :
  step (ExecutorDone now now' i o) w = Some w' ->
  exists j, nth_error (executing w) i = Some j /\
    clock w <= now /\ now <= now' /\
    w' = settle Queued now'
           (_checkRatedQueue now now' (transport (released i j o w)))
           (released i j o w).
Proof.
  cbn. destruct (nth_error (executing w) i) as [j | ]; [|discriminate].
  unfold ticks. destruct (Z.leb_spec (clock w) now); cbn; [|discriminate].
  destruct (Z.leb_spec now now'); cbn; [|discriminate].
  intros E. inversion E. exists j. repeat split; auto.
Qed.

Lemma step_TimerFires (now now' : Z) (w w' : World) :
  step (TimerFires now now') w = Some w' ->
  sendingRateTTL (transport w) <> None /\
  clock w <= now /\ now <= now' /\
  w' = settle Queued now'
         (_checkRatedQueue now now' (transport (timer_consumed w)))
         (timer_consumed w).
Proof.
  cbn. destruct (sendingRateTTL (transport w)); [|discriminate].
  unfold ticks. destruct (Z.leb_spec (clock w) now); cbn; [|discriminate].
  destruct (Z.leb_spec now now'); cbn; [|discriminate].
  intros E. inversion E. repeat split; auto. discriminate.
Qed.

Lemma step_CallSend (now now' : Z) (j : Job) (w w' : World) :
  step (CallSend now now' j) w = Some w' ->
  clock w <= now /\ now <= now' /\
  w' = settle Immediately now' (send now now' j (transport w))
         (record_submission j (route_of_send (snd (send now now' j (transport w)))) w).
Proof.
  cbn. unfold ticks. destruct (Z.leb_spec (clock w) now); cbn; [|discriminate].
  destruct (Z.leb_spec now now'); cbn; [|discriminate].
  intros E. inversion E. repeat split; auto.
Qed.

Lemma step_RunImmediate (w w' : World) :
  step RunImmediate w = Some w' ->
  exists c rest, immediates w = c :: rest /\
    w' = {| transport := transport w; executing := executing w;
            immediates := rest; clock := clock w;
            submitted := submitted w; admitted := admitted w;
            invoked := invoked w ++ [c] |}.
Proof.
  cbn. destruct (immediates w) as [ | c rest]; [discriminate|].
  intros H. inversion H. eauto.
Qed.

Lemma accounted_released (maxC rate : number) (i : nat) (j : Job) (o : Outcome)
    (w : World) :
  accounted maxC rate w -> nth_error (executing w) i = Some j ->
  accounted maxC rate (released i j o w).
Proof.
  intros [Hm Hr Hi Hc Hs Hp Hh] Hj. constructor; cbn; auto.
  rewrite Hc, (remove_nth_length _ _ _ Hj). lia.
Qed.

Lemma accounted_timer_consumed (maxC rate : number) (w : World) :
  accounted maxC rate w -> accounted maxC rate (timer_consumed w).
Proof. intros [Hm Hr Hi Hc Hs Hp Hh]. constructor; cbn; auto. Qed.

Lemma accounted_record_submission (maxC rate : number) (j : Job) (r : Route) (w : World) :
  accounted maxC rate w -> accounted maxC rate (record_submission j r w).
Proof. intros [Hm Hr Hi Hc Hs Hp Hh]. constructor; cbn; auto. Qed.

Lemma accounted_drain (maxC rate : number) (now now' : Z) (w : World) :
  accounted maxC rate w -> clock w <= now -> now <= now' ->
  accounted maxC rate (settle Queued now' (_checkRatedQueue now now' (transport w)) w).
Proof.
  intros Hw Hnow Hnow'.
  pose proof (_checkRatedQueue_cases now now' (transport w)) as H. cbn in H.
  destruct (_checkRatedQueue now now' (transport w)) as [t' started]. cbn in H.
  destruct H as [(next & -> & _ & Hadm) | (-> & _ & [Href | Hidle])].
  - eapply accounted_admit; eauto.
  - eapply accounted_quiet; eauto using refused_on_quiet.
  - eapply accounted_quiet; eauto.
    destruct Hidle as (_ & Hc & Hn & _ & Hl & _). constructor; auto.
Qed.

Lemma accounted_step (maxC rate : number) (e : Event) (w w' : World) :
  accounted maxC rate w -> step e w = Some w' -> accounted maxC rate w'.
Proof.
  intros Hw Hstep. destruct e as [now now' j | now now' i o | now now' | ].
  - apply step_CallSend in Hstep as (Hnow & Hnow' & ->).
    pose proof (send_cases now now' j (transport w)) as H. cbn in H.
    destruct (send now now' j (transport w)) as [t' started]. cbn in H. cbn [snd].
    destruct H as [(-> & _ & Hadm) | (-> & _ & Href)].
    + eapply accounted_admit; eauto using accounted_record_submission.
    + eapply accounted_quiet;
        eauto using accounted_record_submission, refused_on_quiet.
  - apply step_ExecutorDone in Hstep as (j & Hj & Hnow & Hnow' & ->).
    apply accounted_drain; auto using accounted_released.
  - apply step_TimerFires in Hstep as (_ & Hnow & Hnow' & ->).
    apply accounted_drain; auto using accounted_timer_consumed.
  - apply step_RunImmediate in Hstep as (c & rest & _ & ->).
    destruct Hw as [Hm Hr Hi Hc Hs Hp Hh]. constructor; cbn; auto.
Qed.

Lemma run_invariant (P : World -> Prop) :
  (forall e w w', P w -> step e w = Some w' -> P w') ->
  forall tr w w', P w -> run tr w = Some w' -> P w'.
Proof.
  intros Hstep tr. induction tr as [ | e tr IH]; cbn; intros w w' Hw Hrun.
  - now inversion Hrun; subst.
  - destruct (step e w) as [w1 | ] eqn:E; [|discriminate]. eauto.
Qed.

Lemma reachable_accounted (maxC rate : number) (w : World) :
  reachable maxC rate w -> accounted maxC rate w.
Proof.
  intros (epoch & tr & Hrun).
  eapply run_invariant; [apply accounted_step | apply accounted_boot | exact Hrun].
Qed.

(** ** Queue discipline and bookkeeping of callbacks *)

Ltac count_callbacks :=
  apply (Permutation_count_occ Callback_eq_dec); intros x;
  repeat match goal with
         | H : Permutation _ _ |- _ =>
             let E := fresh "E" in
             pose proof (proj1 (Permutation_count_occ Callback_eq_dec _ _) H x) as E;
             clear H
         end;
  unfold callbacks_held in *; cbn in *;
  repeat (rewrite ?map_app, ?count_occ_app in *; cbn in *);
  repeat match goal with
         | |- context [Callback_eq_dec ?a ?b] => destruct (Callback_eq_dec a b)
         | H : context [Callback_eq_dec ?a ?b] |- _ => destruct (Callback_eq_dec a b)
         end;
  try lia; try congruence.

Lemma disciplined_boot (t : SESTransport) (epoch : Z) :
  pending t = [] -> disciplined (boot t epoch).
Proof.
  intros Hp. constructor; unfold queued_jobs, drained_jobs, passed_jobs,
    direct_jobs, callbacks_held; cbn; rewrite ?Hp; auto.
Qed.

Lemma disciplined_send (now now' : Z) (j : Job) (w : World) :
  disciplined w ->
  disciplined (settle Immediately now' (send now now' j (transport w))
                 (record_submission j (route_of_send (snd (send now now' j (transport w)))) w)).
Proof.
  intros [Hq Hd Hc].
  pose proof (send_cases now now' j (transport w)) as H. cbn in H.
  destruct (send now now' j (transport w)) as [t' started]. cbn in H. cbn [snd].
  unfold queued_jobs, drained_jobs, passed_jobs, direct_jobs in *.
  destruct H as [(-> & Hp & _) | (-> & Hp & _)]; constructor;
    unfold queued_jobs, drained_jobs, passed_jobs, direct_jobs, callbacks_held in *;
    cbn; rewrite ?filter_app, ?map_app, ?app_nil_r; cbn; rewrite ?app_nil_r, ?Hp;
    try congruence.
  - count_callbacks.
  - rewrite Hq. now rewrite app_assoc.
  - count_callbacks.
Qed.

Lemma disciplined_drain (now now' : Z) (w : World) :
  disciplined w ->
  disciplined (settle Queued now' (_checkRatedQueue now now' (transport w)) w).
Proof.
  intros [Hq Hd Hc].
  pose proof (_checkRatedQueue_cases now now' (transport w)) as H. cbn in H.
  destruct (_checkRatedQueue now now' (transport w)) as [t' started]. cbn in H.
  unfold queued_jobs, drained_jobs, passed_jobs, direct_jobs in *.
  destruct H as [(next & -> & Hp & _) | (-> & Hp & _)]; constructor;
    unfold queued_jobs, drained_jobs, passed_jobs, direct_jobs, callbacks_held in *;
    cbn; rewrite ?filter_app, ?map_app, ?app_nil_r; cbn; rewrite ?app_nil_r;
    try congruence.
  - rewrite Hq, Hp. now rewrite <- app_assoc.
  - rewrite Hp in Hc. count_callbacks.
Qed.

Lemma disciplined_released (i : nat) (j : Job) (o : Outcome) (w : World) :
  disciplined w -> nth_error (executing w) i = Some j ->
  disciplined (released i j o w).
Proof.
  intros [Hq Hd Hc] Hj. constructor; auto.
  apply remove_nth_Permutation in Hj.
  apply (Permutation_map callback) in Hj.
  count_callbacks.
Qed.

Lemma disciplined_step (e : Event) (w w' : World) :
  disciplined w -> step e w = Some w' -> disciplined w'.
Proof.
  intros Hw Hstep. destruct e as [now now' j | now now' i o | now now' | ].
  - apply step_CallSend in Hstep as (_ & _ & ->). now apply disciplined_send.
  - apply step_ExecutorDone in Hstep as (j & Hj & _ & _ & ->).
    apply disciplined_drain. now apply disciplined_released.
  - apply step_TimerFires in Hstep as (_ & _ & _ & ->).
    apply disciplined_drain. destruct Hw as [Hq Hd Hc]. constructor; auto.
  - apply step_RunImmediate in Hstep as (c & rest & Hi & ->).
    destruct Hw as [Hq Hd Hc]. constructor; auto.
    unfold callbacks_held in Hc. rewrite Hi in Hc. count_callbacks.
Qed.

Lemma reachable_disciplined (maxC rate : number) (w : World) :
  reachable maxC rate w -> disciplined w.
Proof.
  intros (epoch & tr & Hrun).
  eapply run_invariant; [apply disciplined_step | | exact Hrun].
  now apply disciplined_boot.
Qed.

(** ** Invariants that need the documented configuration *)

Lemma filter_none {A : Type} (f : A -> bool) (l : list A) :
  Forall (fun x => f x = false) l -> filter f l = [].
Proof.
  induction 1 as [ | x l Hx _ IH]; cbn; [reflexivity|]. now rewrite Hx.
Qed.

Lemma filter_map_length {A B : Type} (f : A -> B) (g : B -> bool) (l : list A) :
  length (filter (fun a => g (f a)) l) = length (filter g (map f l)).
Proof.
  induction l as [ | a l IH]; cbn; [reflexivity|].
  destruct (g (f a)); cbn; now rewrite IH.
Qed.

Lemma window_misses_expired (s interval bound : Z) (l : list Z) :
  bound <= s - interval ->
  Forall (fun m => m <= bound) l ->
  filter (in_window s interval) l = [].
Proof.
  intros Hb Hl. apply filter_none. eapply Forall_impl; [|exact Hl].
  cbn. intros m Hm. unfold in_window.
  destruct (Z.ltb_spec (s - interval) m); [lia | reflexivity].
Qed.

Lemma within_boot (mc mr : option Z) (maxC rate : number) (epoch : Z) :
  bounds maxC mc -> bounds rate mr ->
  within mc mr (boot (new_transport maxC rate) epoch).
Proof.
  intros Hc Hr. constructor; cbn.
  - intros m ->. destruct Hc. lia.
  - intros m ->. destruct Hr. lia.
  - intros m s ->. destruct Hr. lia.
Qed.

Lemma within_quiet (mc mr : option Z) (r : Route) (now now' : Z)
    (w : World) (t' : SESTransport) :
  within mc mr w -> quiet now (transport w) t' ->
  within mc mr (settle r now' (t', []) w).
Proof.
  intros [Hc Hl Hw] [(Qm & Qr & Qi) Qc Ql]. constructor; cbn.
  - intros m Hm. rewrite Qc. auto.
  - intros m Hm. specialize (Hl m Hm).
    destruct Ql as [-> | ->]; [assumption|].
    pose proof (splice_expired_length now (rateInterval (transport w))
                  (rateMessages (transport w))). lia.
  - intros m s Hm. specialize (Hw m s Hm).
    unfold window_count in *. cbn. now rewrite app_nil_r, Qi.
Qed.

Lemma within_admit (maxC rate : number) (mc mr : option Z) (r : Route)
    (now now' : Z) (j : Job) (w : World) (t' : SESTransport) :
  bounds maxC mc -> bounds rate mr ->
  accounted maxC rate w -> within mc mr w ->
  clock w <= now -> now <= now' ->
  admitted_on now now' j (transport w) t' ->
  within mc mr (settle r now' (t', [j]) w).
Proof.
  intros Bc Br [Hm Hr Hi _ _ _ (dropped & Hh & Hd)] [Hc Hl Hw] Hnow Hnow'
         [(Qm & Qr & Qi) Qroom Qbudget Qc Ql _].
  rewrite Hi in *. rewrite Hm in Qroom. rewrite Hr in Qbudget.
  constructor; cbn.
  - intros m ->. destruct Bc as (_ & _ & Bge & _).
    rewrite Bge in Qroom. rewrite Qc. lia.
  - intros m ->. destruct Br as (_ & Blt & _).
    unfold of_nat in Qbudget. rewrite Blt in Qbudget.
    rewrite Ql, length_app. cbn. lia.
  - intros m s ->. destruct Br as (_ & Blt & _).
    unfold of_nat in Qbudget. rewrite Blt in Qbudget.
    specialize (Hw m s eq_refl).
    unfold window_count in *. cbn. rewrite Qi, Hi in *.
    rewrite filter_app, length_app. cbn.
    destruct (in_window s 1000 now') eqn:Hin; cbn; [|lia].
    unfold in_window in Hin. apply andb_true_iff in Hin as [_ Hhi].
    apply Z.leb_le in Hhi.
    destruct (splice_expired_split now 1000 (rateMessages (transport w)))
      as (d2 & Hsplit & Hd2).
    rewrite (filter_map_length adm_time (in_window s 1000)), Hh, Hsplit.
    rewrite !filter_app, !length_app.
    rewrite (window_misses_expired s 1000 (clock w - 1000) dropped); [|lia|assumption].
    rewrite (window_misses_expired s 1000 (now - 1000) d2); [|lia|assumption].
    cbn.
    pose proof (filter_length_le (in_window s 1000)
                  (splice_expired now 1000 (rateMessages (transport w)))).
    lia.
Qed.

Lemma within_drain (maxC rate : number) (mc mr : option Z) (now now' : Z) (w : World) :
  bounds maxC mc -> bounds rate mr ->
  accounted maxC rate w -> within mc mr w ->
  clock w <= now -> now <= now' ->
  within mc mr (settle Queued now' (_checkRatedQueue now now' (transport w)) w).
Proof.
  intros Bc Br Ha Hw Hnow Hnow'.
  pose proof (_checkRatedQueue_cases now now' (transport w)) as H. cbn in H.
  destruct (_checkRatedQueue now now' (transport w)) as [t' started]. cbn in H.
  destruct H as [(next & -> & _ & Hadm) | (-> & _ & [Href | Hidle])].
  - now apply (within_admit maxC rate) with (now := now).
  - apply within_quiet with (now := now); auto using refused_on_quiet.
  - apply within_quiet with (now := now); auto.
    destruct Hidle as (_ & Hc & Hn & _ & Hl & _). constructor; auto.
Qed.

Lemma room_taken (maxC rate : number) (mc : option Z) (w : World) :
  ceiling maxC mc -> accounted maxC rate w ->
  JS.ge (of_Z (connections (transport w))) (maxConnections (transport w)) = true ->
  executing w <> [].
Proof.
  intros Bc [Hm _ _ Hc _ _ _] Hge. rewrite Hm in Hge.
  destruct mc as [m | ]; cbn in Bc.
  - destruct Bc as (Hpos & _ & Bge & _). rewrite Bge in Hge.
    apply Z.leb_le in Hge. intros E. rewrite Hc, E in Hge. cbn in Hge. lia.
  - rewrite Bc in Hge. discriminate.
Qed.

Lemma live_refused (maxC rate : number) (mc : option Z) (r : Route) (now now' : Z)
    (w : World) (t' : SESTransport) :
  ceiling maxC mc -> accounted maxC rate w ->
  refused_on now (transport w) t' ->
  live (settle r now' (t', []) w).
Proof.
  intros Bc Ha [_ _ _ Hcause] _. cbn. rewrite app_nil_r.
  destruct Hcause as [(Hge & _) | (_ & _ & _ & ->)].
  - left. eapply room_taken; eauto.
  - right. discriminate.
Qed.

Lemma live_started (r : Route) (now' : Z) (j : Job) (w : World) (t' : SESTransport) :
  live (settle r now' (t', [j]) w).
Proof.
  intros _. left. cbn. destruct (executing w); discriminate.
Qed.

Lemma live_drain (maxC rate : number) (mc : option Z) (now now' : Z) (w : World) :
  ceiling maxC mc -> accounted maxC rate w ->
  live (settle Queued now' (_checkRatedQueue now now' (transport w)) w).
Proof.
  intros Bc Ha.
  pose proof (_checkRatedQueue_cases now now' (transport w)) as H. cbn in H.
  destruct (_checkRatedQueue now now' (transport w)) as [t' started]. cbn in H.
  destruct H as [(next & -> & _ & _) | (-> & Hp & [Href | Hidle])].
  - apply live_started.
  - now apply (live_refused maxC rate mc) with (now := now).
  - intros Hne. cbn in Hne. destruct Hidle as (Hempty & _). congruence.
Qed.

Lemma live_send (maxC rate : number) (mc : option Z) (now now' : Z) (j : Job) (w : World) :
  ceiling maxC mc -> accounted maxC rate w ->
  live (settle Immediately now' (send now now' j (transport w))
          (record_submission j (route_of_send (snd (send now now' j (transport w)))) w)).
Proof.
  intros Bc Ha.
  pose proof (send_cases now now' j (transport w)) as H. cbn in H.
  destruct (send now now' j (transport w)) as [t' started]. cbn in H. cbn [snd].
  destruct H as [(-> & _ & _) | (-> & _ & Href)].
  - apply live_started.
  - apply (live_refused maxC rate mc) with (now := now);
      auto using accounted_record_submission.
Qed.

Lemma within_step (maxC rate : number) (mc mr : option Z) (e : Event) (w w' : World) :
  bounds maxC mc -> bounds rate mr ->
  accounted maxC rate w -> within mc mr w -> step e w = Some w' -> within mc mr w'.
Proof.
  intros Bc Br Ha Hw Hstep.
  destruct e as [now now' j | now now' i o | now now' | ].
  - apply step_CallSend in Hstep as (Hnow & Hnow' & ->).
    pose proof (send_cases now now' j (transport w)) as H. cbn in H.
    destruct (send now now' j (transport w)) as [t' started]. cbn in H. cbn [snd].
    assert (Hw0 : forall r, within mc mr (record_submission j r w)).
    { intros r. destruct Hw as [H1 H2 H3]. constructor; auto. }
    destruct H as [(-> & _ & Hadm) | (-> & _ & Href)].
    + apply (within_admit maxC rate) with (now := now);
        auto using accounted_record_submission.
    + apply within_quiet with (now := now); auto using refused_on_quiet.
  - apply step_ExecutorDone in Hstep as (j & Hj & Hnow & Hnow' & ->).
    pose proof (accounted_released maxC rate i j o w Ha Hj) as Ha1.
    apply (within_drain maxC rate); auto.
    destruct Hw as [H1 H2 H3]. constructor; cbn; auto.
    intros m Hm. specialize (H1 m Hm). lia.
  - apply step_TimerFires in Hstep as (_ & Hnow & Hnow' & ->).
    pose proof (accounted_timer_consumed maxC rate w Ha) as Ha1.
    apply (within_drain maxC rate); auto.
    destruct Hw as [H1 H2 H3]. constructor; cbn; auto.
  - apply step_RunImmediate in Hstep as (c & rest & _ & ->).
    destruct Hw as [H1 H2 H3]. constructor; cbn; auto.
Qed.

Lemma live_step (maxC rate : number) (mc : option Z) (e : Event) (w w' : World) :
  ceiling maxC mc ->
  accounted maxC rate w -> live w -> step e w = Some w' -> live w'.
Proof.
  intros Bc Ha Hl Hstep.
  destruct e as [now now' j | now now' i o | now now' | ].
  - apply step_CallSend in Hstep as (Hnow & Hnow' & ->).
    now apply (live_send maxC rate mc).
  - apply step_ExecutorDone in Hstep as (j & Hj & Hnow & Hnow' & ->).
    apply (live_drain maxC rate mc); auto using accounted_released.
  - apply step_TimerFires in Hstep as (_ & Hnow & Hnow' & ->).
    apply (live_drain maxC rate mc); auto using accounted_timer_consumed.
  - apply step_RunImmediate in Hstep as (c & rest & _ & ->). exact Hl.
Qed.

Lemma reachable_within (maxC rate : number) (mc mr : option Z) (w : World) :
  bounds maxC mc -> bounds rate mr ->
  reachable maxC rate w -> within mc mr w.
Proof.
  intros Bc Br (epoch & tr & Hrun).
  apply (run_invariant (fun w => accounted maxC rate w /\ within mc mr w))
    with (tr := tr) (w := boot (new_transport maxC rate) epoch); auto.
  - intros e w1 w2 [Ha Hw] Hstep. split.
    + eapply accounted_step; eauto.
    + apply (within_step maxC rate mc mr e w1); auto.
  - split; [apply accounted_boot | now apply within_boot].
Qed.

Lemma reachable_live (maxC rate : number) (mc : option Z) (w : World) :
  ceiling maxC mc -> reachable maxC rate w -> live w.
Proof.
  intros Bc (epoch & tr & Hrun).
  apply (run_invariant (fun w => accounted maxC rate w /\ live w))
    with (tr := tr) (w := boot (new_transport maxC rate) epoch); auto.
  - intros e w1 w2 [Ha Hw] Hstep. split.
    + eapply accounted_step; eauto.
    + apply (live_step maxC rate mc e w1); auto.
  - split; [apply accounted_boot|]. intros H. now cbn in H.
Qed.

(** ** Worlds grown from [new SESTransport(options)] *)

Lemma started_from_reachable (stn : string -> number) (options : option Options)
    (w : World) :
  started_from stn options w ->
  reachable (maxConnections (constructor stn options))
            (sendingRate (constructor stn options)) w.
Proof. intros (epoch & tr & H). exists epoch, tr. exact H. Qed.

Lemma overtaken_world_started :
  started_from no_parser (Some one_per_second) overtaken_world.
Proof. exists 0, overtaking_trace. vm_compute. reflexivity. Qed.

Lemma busy_world_started :
  started_from no_parser (Some two_per_second) busy_world.
Proof. exists 0, busy_trace. vm_compute. reflexivity. Qed.

(** * The claims *)

(** ** C1: admission order *)

(** C1, as stated, fails: with [sendingRate = 1], jobs A and B submitted
    at time 0 and job C submitted at time 1000, [send] lets C through while
    B, submitted before C, is still on [pending].  B was never admitted when
    C is, so admission does not follow submission order. *)
Lemma C1_send_overtakes_pending :
  exists w,
    started_from no_parser (Some one_per_second) w /\
    map fst (submitted w) = [jobA; jobB; jobC] /\
    map adm_job (admitted w) = [jobA; jobC] /\
    pending (transport w) = [jobB] /\
    ~ admitted_in_submission_order w.
Proof.
  exists overtaken_world. split; [exact overtaken_world_started|].
  repeat split; try reflexivity.
  intros H.
  destruct (H 1%nat 2%nat jobB jobC ltac:(lia) eq_refl eq_refl 1%nat eq_refl)
    as (p' & Hle & Hp').
  destruct p' as [ | [ | p']]; cbn in Hp'; try discriminate; lia.
Qed.

(** C1, amended: the queue itself is first-in first-out and so is
    immediate admission.  In every reachable world the jobs shifted from
    [pending] and handed to [_send], followed by the jobs still pending, are
    exactly the jobs [send] pushed on [pending], in submission order; and
    the jobs [send] let through at once were handed to [_send] in
    submission order. *)
Theorem C1_each_route_is_fifo
    (stn : string -> number) (options : option Options) (w : World) :
  started_from stn options w ->
  queued_jobs w = drained_jobs w ++ pending (transport w) /\
  passed_jobs w = direct_jobs w.
Proof.
  intros H. apply started_from_reachable, reachable_disciplined in H.
  destruct H as [Hq Hd _]. split; assumption.
Qed.

Lemma C1_each_route_is_fifo_witness :
  started_from no_parser (Some two_per_second) busy_world /\
  (queued_jobs busy_world = drained_jobs busy_world ++ pending (transport busy_world) /\
   passed_jobs busy_world = direct_jobs busy_world).
Proof.
  split; [exact busy_world_started|].
  apply (C1_each_route_is_fifo no_parser (Some two_per_second)).
  exact busy_world_started.
Defined.

(** ** C2: the concurrency invariant *)

Lemma connections_bounded (maxC rate : number) (w : World) :
  ceiling_ok maxC = true -> reachable maxC rate w ->
  0 <= connections (transport w) /\
  JS.le (of_Z (connections (transport w))) (maxConnections (transport w)) = true.
Proof.
  intros Hok H.
  pose proof (reachable_accounted _ _ _ H) as [Hm _ _ Hc _ _ _].
  split; [lia|].
  destruct (ceiling_ok_ceiling _ Hok) as (mc & Bc).
  pose proof (reachable_within _ _ mc None w (ceiling_bounds _ _ Bc) I H) as [Hw _ _].
  rewrite Hm. destruct mc as [m | ]; cbn in Bc.
  - destruct Bc as (_ & _ & _ & Ble). rewrite Ble. apply Z.leb_le. auto.
  - rewrite Bc. reflexivity.
Qed.

(** C2: for a transport whose [maxConnections] is a positive integer or
    unbounded, every world reached through calls of [send], executor
    completions, timer firings and [setImmediate] turns has
    [0 <= connections <= maxConnections]. *)
Theorem C2_connections_within_ceiling
    (stn : string -> number) (options : option Options) (w : World) :
  ceiling_ok (maxConnections (constructor stn options)) = true ->
  started_from stn options w ->
  0 <= connections (transport w) /\
  JS.le (of_Z (connections (transport w))) (maxConnections (transport w)) = true.
Proof.
  intros Hok H. apply started_from_reachable in H.
  exact (connections_bounded _ _ w Hok H).
Qed.

Lemma C2_connections_within_ceiling_witness :
  ceiling_ok (maxConnections (constructor no_parser (Some two_per_second))) = true /\
  started_from no_parser (Some two_per_second) busy_world /\
  (0 <= connections (transport busy_world) /\
   JS.le (of_Z (connections (transport busy_world)))
         (maxConnections (transport busy_world)) = true).
Proof.
  split; [reflexivity|]. split; [exact busy_world_started|].
  apply (C2_connections_within_ceiling no_parser (Some two_per_second));
    [reflexivity | exact busy_world_started].
Defined.

(** ** C3: the rate invariant *)

Lemma lt_le (a b : number) : JS.lt a b = true -> JS.le a b = true.
Proof.
  unfold JS.lt, JS.le, JS.ge.
  destruct a as [ | x | | ], b as [ | y | | ]; try discriminate; try reflexivity.
  intros H. apply negb_true_iff in H.
  apply Qle_bool_iff. apply Qlt_le_weak. apply Qnot_le_lt.
  intros Hle. apply Qle_bool_iff in Hle. congruence.
Qed.

Lemma le_ceiling (n : number) (m : option Z) (z : Z) :
  ceiling n m -> (forall k, m = Some k -> z <= k) -> JS.le (of_Z z) n = true.
Proof.
  destruct m as [k | ]; cbn.
  - intros (_ & _ & _ & Ble) H. rewrite Ble. apply Z.leb_le. auto.
  - intros -> _. reflexivity.
Qed.

Lemma rate_bounded (maxC rate : number) (w : World) :
  ceiling_ok rate = true -> reachable maxC rate w ->
  (forall s, JS.le (of_nat (window_count s w)) (sendingRate (transport w)) = true) /\
  StronglySorted Z.le (rateMessages (transport w)) /\
  JS.le (of_nat (length (rateMessages (transport w)))) (sendingRate (transport w)) = true /\
  (forall now,
     fst (_checkSendingRate now (transport w)) = true ->
     JS.le (of_nat (length (rateMessages (snd (_checkSendingRate now (transport w))))))
           (sendingRate (snd (_checkSendingRate now (transport w)))) = true).
Proof.
  intros Hok H.
  pose proof (reachable_accounted _ _ _ H) as [_ Hr _ _ Hs _ _].
  destruct (ceiling_ok_ceiling _ Hok) as (mr & Br).
  pose proof (reachable_within _ _ None mr w I (ceiling_bounds _ _ Br) H) as [_ Hl Hw].
  rewrite Hr. repeat split.
  - intros s. apply (le_ceiling rate mr); auto.
  - exact Hs.
  - apply (le_ceiling rate mr); auto.
  - intros now Hyes.
    destruct (_checkSendingRate_checked now (transport w)) as [(_ & Qr & _) _ _ _ Hv _].
    rewrite Hyes in Hv. rewrite Qr. apply lt_le. symmetry. exact Hv.
Qed.

(** C3: for a transport whose [sendingRate] is a positive integer or
    unbounded, in every reachable world and for every instant [s] the
    number of admissions whose recorded timestamp lies in the window
    [(s - rateInterval, s]] is at most [sendingRate]; [rateMessages] is in
    non-decreasing order and never longer than [sendingRate]; and right
    after any successful [_checkSendingRate] its length is at most
    [sendingRate]. *)
Theorem C3_rate_window_bounded
    (stn : string -> number) (options : option Options) (w : World) :
  ceiling_ok (sendingRate (constructor stn options)) = true ->
  started_from stn options w ->
  (forall s, JS.le (of_nat (window_count s w)) (sendingRate (transport w)) = true) /\
  StronglySorted Z.le (rateMessages (transport w)) /\
  JS.le (of_nat (length (rateMessages (transport w)))) (sendingRate (transport w)) = true /\
  (forall now,
     fst (_checkSendingRate now (transport w)) = true ->
     JS.le (of_nat (length (rateMessages (snd (_checkSendingRate now (transport w))))))
           (sendingRate (snd (_checkSendingRate now (transport w)))) = true).
Proof.
  intros Hok H. apply started_from_reachable in H.
  exact (rate_bounded _ _ w Hok H).
Qed.

Lemma C3_rate_window_bounded_witness :
  ceiling_ok (sendingRate (constructor no_parser (Some two_per_second))) = true /\
  started_from no_parser (Some two_per_second) busy_world /\
  ((forall s, JS.le (of_nat (window_count s busy_world))
                    (sendingRate (transport busy_world)) = true) /\
   StronglySorted Z.le (rateMessages (transport busy_world)) /\
   JS.le (of_nat (length (rateMessages (transport busy_world))))
         (sendingRate (transport busy_world)) = true /\
   (forall now,
      fst (_checkSendingRate now (transport busy_world)) = true ->
      JS.le (of_nat (length (rateMessages
                               (snd (_checkSendingRate now (transport busy_world))))))
            (sendingRate (snd (_checkSendingRate now (transport busy_world)))) = true)).
Proof.
  split; [reflexivity|]. split; [exact busy_world_started|].
  apply (C3_rate_window_bounded no_parser (Some two_per_second));
    [reflexivity | exact busy_world_started].
Defined.

(** ** C4: the delay of the recheck timer *)

Lemma timeout_argument_of_Z (now d : Z) :
  timeout_argument now (of_Z d) = of_Z (now - d).
Proof.
  unfold timeout_argument, of_Z, Qminus, Qplus, Qopp, inject_Z. cbn.
  f_equal. f_equal. lia.
Qed.

(** C4 does not hold of the code: whenever [_checkSendingRate] refuses,
    the number it gives to [setTimeout] is
    [now - max(oldest + 1001, now + 20)], which is at most [-20].  It is
    never positive and never the documented delay, which is at least 20. *)
Theorem C4_recheck_delay_is_negative (now : Z) (t : SESTransport) (oldest : Z)
    (rest : list Z) :
  fst (_checkSendingRate now t) = false ->
  rateMessages (snd (_checkSendingRate now t)) = oldest :: rest ->
  exists d,
    sendingRateTTL (snd (_checkSendingRate now t)) = Some (SetTimeout (of_Z d)) /\
    d = now - Z.max (oldest + 1001) (now + 20) /\
    d <= -20 /\
    20 <= documented_delay oldest (rateInterval t) now /\
    d <> documented_delay oldest (rateInterval t) now.
Proof.
  intros Hno Hlog.
  destruct (_checkSendingRate_checked now t) as [_ _ _ _ _ Ht].
  rewrite Hno, Hlog in Ht. unfold recheck_at in Ht.
  rewrite timeout_argument_of_Z in Ht.
  exists (now - Z.max (oldest + 1001) (now + 20)).
  unfold documented_delay. repeat split; try assumption; lia.
Qed.

Lemma C4_recheck_delay_is_negative_witness :
  fst (_checkSendingRate 0 throttled_transport) = false /\
  rateMessages (snd (_checkSendingRate 0 throttled_transport)) = [0] /\
  sendingRateTTL (snd (_checkSendingRate 0 throttled_transport)) =
    Some (SetTimeout (of_Z (-1001))) /\
  documented_delay 0 (rateInterval throttled_transport) 0 = 1000.
Proof.
  split; [reflexivity|]. split; [reflexivity|].
  destruct (C4_recheck_delay_is_negative 0 throttled_transport 0 [] eq_refl eq_refl)
    as (d & Ht & Hd & _).
  split; [|reflexivity].
  rewrite Ht, Hd. reflexivity.
Defined.

(** ** C5: one call of [_checkRatedQueue] *)

(** C5, as stated, fails: when the timer fires at time 1001 the window is
    empty again and both C and D fit under the rate, yet the call starts C
    alone and returns with D still on [pending]; a second call at the same
    instant starts D. *)
Lemma C5_single_call_leaves_backlog :
  started_from no_parser (Some unbounded_two_per_second) backlog_world /\
  pending (transport backlog_world) = [jobC; jobD] /\
  snd (_checkRatedQueue 1001 1001 (transport (timer_consumed backlog_world))) = [jobC] /\
  pending (fst (_checkRatedQueue 1001 1001 (transport (timer_consumed backlog_world))))
    = [jobD] /\
  ~ drains_until_exhausted 1001 1001 (transport (timer_consumed backlog_world)).
Proof.
  split; [exists 0, backlog_trace; vm_compute; reflexivity|].
  repeat split; try reflexivity.
  unfold drains_until_exhausted. vm_compute. discriminate.
Qed.

(** C5, amended: one call of [_checkRatedQueue] starts at most one job.
    The job it starts is the head of [pending] and the rest of the queue
    keeps its order; it starts nothing exactly when there is no free
    connection, or [_checkSendingRate] refuses, or [pending] is empty. *)
Theorem C5_checkRatedQueue_starts_at_most_one (now now' : Z) (t : SESTransport) :
  (length (snd (_checkRatedQueue now now' t)) <= 1)%nat /\
  pending t = snd (_checkRatedQueue now now' t) ++ pending (fst (_checkRatedQueue now now' t)) /\
  (snd (_checkRatedQueue now now' t) = [] <->
   JS.ge (of_Z (connections t)) (maxConnections t) = true \/
   fst (_checkSendingRate now t) = false \/
   pending t = []).
Proof. apply _checkRatedQueue_idle_iff. Qed.

(** ** C7: [_sent] *)

Lemma _checkRatedQueue_connections (now now' : Z) (t : SESTransport) :
  connections (fst (_checkRatedQueue now now' t)) =
  connections t + Z.of_nat (length (snd (_checkRatedQueue now now' t))).
Proof.
  pose proof (_checkRatedQueue_cases now now' t) as H. cbn in H.
  destruct (_checkRatedQueue now now' t) as [t' started]. cbn in *.
  destruct H as [(next & -> & _ & Hadm) | (-> & _ & [Href | Hidle])]; cbn.
  - destruct Hadm. lia.
  - destruct Href. lia.
  - destruct Hidle as (_ & _ & Hc & _). lia.
Qed.

(** C7: [_sent] is called by the closure of a job in flight.  It takes
    exactly one off [connections], which cannot go below zero because the
    job that calls it was counted, and then runs [_checkRatedQueue] on the
    decremented state; when it returns, [connections] is the old value
    minus one plus the job that the redrive may have started. *)
Theorem C7_sent_releases_one_slot
    (stn : string -> number) (options : option Options) (w : World)
    (i : nat) (j : Job) (now now' : Z) :
  started_from stn options w ->
  nth_error (executing w) i = Some j ->
  _sent now now' (transport w) =
    _checkRatedQueue now now'
      (set_connections (connections (transport w) - 1) (transport w)) /\
  0 <= connections (transport w) - 1 /\
  connections (fst (_sent now now' (transport w))) =
    connections (transport w) - 1
    + Z.of_nat (length (snd (_sent now now' (transport w)))) /\
  0 <= connections (fst (_sent now now' (transport w))).
Proof.
  intros H Hj. apply started_from_reachable, reachable_accounted in H.
  destruct H as [_ _ _ Hc _ _ _].
  pose proof (remove_nth_length _ _ _ Hj) as Hlen.
  assert (Hpos : 0 <= connections (transport w) - 1) by lia.
  split; [reflexivity|]. split; [exact Hpos|].
  unfold _sent. rewrite _checkRatedQueue_connections. cbn. split; lia.
Qed.

Lemma C7_sent_releases_one_slot_witness :
  started_from no_parser (Some two_per_second) busy_world /\
  nth_error (executing busy_world) 0 = Some jobB /\
  connections (transport busy_world) = 1 /\
  connections (fst (_sent 1200 1200 (transport busy_world))) = 1.
Proof.
  split; [exact busy_world_started|]. split; [reflexivity|]. split; [reflexivity|].
  destruct (C7_sent_releases_one_slot no_parser (Some two_per_second) busy_world
              0 jobB 1200 1200 busy_world_started eq_refl) as (_ & _ & Hc & _).
  rewrite Hc. reflexivity.
Defined.

(** ** C8: a failed execution *)

Lemma splice_expired_keeps (now interval m : Z) (msgs : list Z) :
  In m msgs -> now - interval < m -> In m (splice_expired now interval msgs).
Proof.
  intros Hin Hnew.
  destruct (splice_expired_split now interval msgs) as (dropped & E & Hd).
  rewrite E in Hin. apply in_app_or in Hin as [Hin | Hin]; [|exact Hin].
  rewrite Forall_forall in Hd. specialize (Hd m Hin). lia.
Qed.

Lemma _checkRatedQueue_keeps (now now' m : Z) (t : SESTransport) :
  In m (rateMessages t) -> now - rateInterval t < m ->
  In m (rateMessages (fst (_checkRatedQueue now now' t))).
Proof.
  intros Hin Hnew.
  pose proof (_checkRatedQueue_cases now now' t) as H. cbn in H.
  destruct (_checkRatedQueue now now' t) as [t' started]. cbn in *.
  destruct H as [(next & _ & _ & Hadm) | (_ & _ & [Href | Hidle])].
  - destruct Hadm as [_ _ _ _ Hl _]. rewrite Hl. apply in_or_app. left.
    now apply splice_expired_keeps.
  - destruct Href as [_ _ [Hl | Hl] _]; rewrite Hl; auto using splice_expired_keeps.
  - destruct Hidle as (_ & _ & _ & _ & Hl & _). rewrite Hl.
    now apply splice_expired_keeps.
Qed.

(** When [_send] calls its closure with an error, whichever of the two
    calls it is, that error is what is queued for the job's callback,
    [_sent] still runs (so the transport, the jobs in flight and the
    admissions are what they would be after a success), the slot is given
    back, and no timestamp still inside the rate window leaves
    [rateMessages]. *)
Lemma reported_failure_still_releases
    (w w' : World) (now now' : Z) (i : nat) (o : Outcome) (err : Error) :
  o = StreamFailed err \/ o = SendFailed err ->
  step (ExecutorDone now now' i o) w = Some w' ->
  exists j,
    nth_error (executing w) i = Some j /\
    immediates w' = immediates w ++ [(callback j, ErrorArgs err)] /\
    invoked w' = invoked w /\
    transport w' = fst (_sent now now' (transport w)) /\
    executing w' = remove_nth i (executing w) ++ snd (_sent now now' (transport w)) /\
    connections (transport w') =
      connections (transport w) - 1
      + Z.of_nat (length (snd (_sent now now' (transport w)))) /\
    (forall info, exists w'',
        step (ExecutorDone now now' i (Delivered info)) w = Some w'' /\
        transport w'' = transport w' /\ executing w'' = executing w' /\
        admitted w'' = admitted w') /\
    (forall m, In m (rateMessages (transport w)) ->
               now - rateInterval (transport w) < m ->
               In m (rateMessages (transport w'))) /\
    firstn (length (admitted w)) (admitted w') = admitted w.
Proof.
  intros Ho Hstep.
  pose proof Hstep as Hinv.
  apply step_ExecutorDone in Hinv as (j & Hj & Hnow & Hnow' & ->).
  exists j. split; [exact Hj|].
  split; [destruct Ho as [-> | ->]; reflexivity|].
  split; [reflexivity|]. split; [reflexivity|]. split; [reflexivity|].
  split; [|split; [|split]].
  - cbn. unfold _sent. rewrite _checkRatedQueue_connections. cbn. lia.
  - intros info. eexists. split.
    + cbn. rewrite Hj. unfold ticks.
      destruct (Z.leb_spec (clock w) now); [|lia].
      destruct (Z.leb_spec now now'); [|lia]. cbn. reflexivity.
    + repeat split.
  - intros m Hin Hnew. cbn.
    apply (_checkRatedQueue_keeps now now' m
             (set_connections (connections (transport w) - 1) (transport w)));
      assumption.
  - cbn. rewrite firstn_app, Nat.sub_diag, firstn_all. cbn. apply app_nil_r.
Qed.

Lemma unheard_events_call_nothing (events : list (Emitter * Emission))
    (l : Listeners) (calls : list NextCall) :
  forallb unheard events = true ->
  exists l',
    fold_left
      (fun st ev =>
         (fst (emit (fst ev) (snd ev) (fst st)),
          snd st ++ snd (emit (fst ev) (snd ev) (fst st))))
      events (l, calls) = (l', calls) /\
    error_listener l' = error_listener l /\ end_listener l' = end_listener l.
Proof.
  revert l. induction events as [ | [from e] rest IH]; intros l Hall; cbn.
  - exists l. auto.
  - cbn in Hall. apply andb_true_iff in Hall as [Hev Hrest].
    destruct from, e; cbn in Hev; try discriminate; cbn [emit fst snd];
      rewrite app_nil_r;
      match goal with
      | |- context [fold_left _ rest (?x, calls)] =>
          destruct (IH x Hrest) as (l' & E & He & Hd)
      end;
      exists l'; cbn in He, Hd; auto.
Qed.

Lemma fold_left_snoc {A B : Type} (f : A -> B -> A) (l : list B) (x : B) (a : A) :
  fold_left f (l ++ [x]) a = f (fold_left f l a) x.
Proof. now rewrite fold_left_app. Qed.

(** C8 does not hold of the code for a composition error.  The only
    ['error'] listener of [getRawMessage] is on [stream], the [LeWindows]
    stream; whatever the composer's own stream emits, its ['error']
    included, [next] is not called as long as [stream] itself neither fails
    nor ends: no [callback(err)], hence no [_sent].  The two failures that do
    arrive, an ['error'] of [stream] and an error answered by
    [sendRawEmail], are reported with the error unchanged. *)
Theorem C8_composer_error_is_never_reported
    (events : list (Emitter * Emission)) (config : option SesConfig) :
  forallb unheard events = true ->
  snd (getRawMessage events) = [] /\
  (forall err,
     snd (getRawMessage (events ++ [(ComposerStream, ErrorEvent err)])) = []) /\
  (forall err,
     snd (getRawMessage (events ++ [(PipedStream, ErrorEvent err)])) = [NextError err]) /\
  (forall err reply,
     callback_args (reported config (NextError err) reply) = ErrorArgs err) /\
  (forall raw err,
     callback_args (reported config (NextRaw raw) (SesError err)) = ErrorArgs err).
Proof.
  intros Hall. unfold getRawMessage.
  destruct (unheard_events_call_nothing events listening [] Hall) as (l' & E & He & Hd).
  split; [now rewrite E|]. split; [|split; [|split]].
  - intros err. rewrite fold_left_snoc, E. reflexivity.
  - intros err. rewrite fold_left_snoc, E. cbn. rewrite He. reflexivity.
  - reflexivity.
  - reflexivity.
Qed.

(** The composer delivers a chunk and then fails. *)
Lemma C8_composer_error_is_never_reported_witness :
  forallb unheard
    [(PipedStream, Readable [[Byte.x41]]); (ComposerStream, ErrorEvent (Err "ENOENT"))] = true /\
  snd (getRawMessage
         [(PipedStream, Readable [[Byte.x41]]);
          (ComposerStream, ErrorEvent (Err "ENOENT"))]) = [].
Proof.
  split; [reflexivity|].
  apply (C8_composer_error_is_never_reported
           [(PipedStream, Readable [[Byte.x41]]);
            (ComposerStream, ErrorEvent (Err "ENOENT"))] None).
  reflexivity.
Defined.

(** ** C9: pruning *)

(** C9: in every reachable world the window is 1000 ms and an admission
    check leaves in [rateMessages] exactly the timestamps newer than
    [now - 1000]: what it removes is a leading segment of the log, all of
    whose entries are at most [now - 1000], and every entry that stays is
    newer. *)
Theorem C9_check_prunes_expired
    (stn : string -> number) (options : option Options) (w : World) (now : Z) :
  started_from stn options w ->
  rateInterval (transport w) = 1000 /\
  rateMessages (snd (_checkSendingRate now (transport w))) =
    filter (fun m => m >? now - 1000) (rateMessages (transport w)) /\
  exists dropped,
    rateMessages (transport w) =
      dropped ++ rateMessages (snd (_checkSendingRate now (transport w))) /\
    Forall (fun m => m <= now - 1000) dropped /\
    Forall (fun m => now - 1000 < m)
           (rateMessages (snd (_checkSendingRate now (transport w)))).
Proof.
  intros H. apply started_from_reachable, reachable_accounted in H.
  destruct H as [_ _ Hi _ Hs _ _].
  destruct (_checkSendingRate_checked now (transport w)) as [_ _ _ Hl _ _].
  rewrite Hi in Hl. split; [exact Hi|].
  pose proof (splice_expired_filter now 1000 _ Hs) as Hf.
  split; [congruence|].
  destruct (splice_expired_split now 1000 (rateMessages (transport w)))
    as (dropped & E & Hd).
  exists dropped. rewrite Hl. repeat split; try assumption.
  rewrite Hf. apply Forall_forall. intros m Hm.
  apply filter_In in Hm as [_ Hm]. apply Z.gtb_lt in Hm. lia.
Qed.

Lemma C9_check_prunes_expired_witness :
  started_from no_parser (Some two_per_second) busy_world /\
  rateMessages (transport busy_world) = [0; 1] /\
  rateMessages (snd (_checkSendingRate 1000 (transport busy_world))) = [1].
Proof.
  split; [exact busy_world_started|]. split; [reflexivity|].
  destruct (C9_check_prunes_expired no_parser (Some two_per_second) busy_world 1000
              busy_world_started) as (_ & Hf & _).
  rewrite Hf. reflexivity.
Defined.

(** ** C10: ceilings that are left out *)

Lemma no_ceiling_falsy (n : number) : no_ceiling n <-> truthy n = false.
Proof.
  split.
  - intros [-> | (q & -> & Hq)]; cbn; [reflexivity|].
    apply negb_false_iff. now apply Qeq_bool_iff.
  - destruct n as [ | q | | ]; cbn; intros H; try discriminate.
    + now left.
    + right. exists q. split; [reflexivity|].
      apply negb_false_iff in H. now apply Qeq_bool_iff.
Qed.

Lemma constructor_maxConnections (stn : string -> number) (options : option Options) :
  maxConnections (constructor stn options) =
  or_else (Number stn (option_maxConnections options)) PosInf.
Proof. destruct options; reflexivity. Qed.

Lemma constructor_sendingRate (stn : string -> number) (options : option Options) :
  sendingRate (constructor stn options) =
  or_else (Number stn (option_sendingRate options)) PosInf.
Proof. destruct options; reflexivity. Qed.

(** C10: if [Number(options.maxConnections)] is [NaN] or zero, the
    transport's [maxConnections] is [Infinity] and, in every reachable
    world, the test [connections >= maxConnections] of [send] is false;
    if [Number(options.sendingRate)] is [NaN] or zero, [sendingRate] is
    [Infinity] and [_checkSendingRate] always answers [true].  With both
    left out every [send] starts its job at once.  A ceiling is finite only
    when the option coerces to a finite nonzero number, which is then the
    ceiling. *)
Theorem C10_missing_ceiling_is_unbounded
    (stn : string -> number) (options : option Options) :
  (no_ceiling (Number stn (option_maxConnections options)) ->
   maxConnections (constructor stn options) = PosInf /\
   forall w, started_from stn options w ->
     JS.ge (of_Z (connections (transport w))) (maxConnections (transport w)) = false) /\
  (no_ceiling (Number stn (option_sendingRate options)) ->
   sendingRate (constructor stn options) = PosInf /\
   forall w now, started_from stn options w ->
     fst (_checkSendingRate now (transport w)) = true) /\
  (no_ceiling (Number stn (option_maxConnections options)) ->
   no_ceiling (Number stn (option_sendingRate options)) ->
   forall w now now' j, started_from stn options w ->
     snd (send now now' j (transport w)) = [j]) /\
  (finite (maxConnections (constructor stn options)) = true ->
   ~ no_ceiling (Number stn (option_maxConnections options)) /\
   maxConnections (constructor stn options) = Number stn (option_maxConnections options)) /\
  (finite (sendingRate (constructor stn options)) = true ->
   ~ no_ceiling (Number stn (option_sendingRate options)) /\
   sendingRate (constructor stn options) = Number stn (option_sendingRate options)).
Proof.
  rewrite constructor_maxConnections, constructor_sendingRate.
  assert (Hmax : no_ceiling (Number stn (option_maxConnections options)) ->
            forall w, started_from stn options w ->
              JS.ge (of_Z (connections (transport w))) (maxConnections (transport w)) = false).
  { intros Hno w H. apply started_from_reachable, reachable_accounted in H.
    destruct H as [Hm _ _ _ _ _ _]. rewrite Hm, constructor_maxConnections.
    apply no_ceiling_falsy in Hno. unfold or_else. rewrite Hno. reflexivity. }
  assert (Hrate : no_ceiling (Number stn (option_sendingRate options)) ->
            forall w now, started_from stn options w ->
              fst (_checkSendingRate now (transport w)) = true).
  { intros Hno w now H. apply started_from_reachable, reachable_accounted in H.
    destruct H as [_ Hr _ _ _ _ _].
    destruct (_checkSendingRate_checked now (transport w)) as [_ _ _ _ Hv _].
    rewrite Hv, Hr, constructor_sendingRate.
    apply no_ceiling_falsy in Hno. unfold or_else. rewrite Hno. reflexivity. }
  unfold or_else. repeat split.
  - apply no_ceiling_falsy in H. now rewrite H.
  - now apply Hmax.
  - apply no_ceiling_falsy in H. now rewrite H.
  - now apply Hrate.
  - intros Hc Hr w now now' j H. unfold send.
    rewrite (Hmax Hc w H).
    specialize (Hrate Hr w now H).
    destruct (_checkSendingRate now (transport w)) as [ok t1]. cbn in Hrate.
    subst ok. reflexivity.
  - intros Hno. apply no_ceiling_falsy in Hno. rewrite Hno in H. discriminate.
  - destruct (truthy (Number stn (option_maxConnections options)));
      [reflexivity | discriminate].
  - intros Hno. apply no_ceiling_falsy in Hno. rewrite Hno in H. discriminate.
  - destruct (truthy (Number stn (option_sendingRate options)));
      [reflexivity | discriminate].
Qed.

(** ** Redriving an idle transport, and C6: completion callbacks *)

Lemma run_app (tr1 tr2 : list Event) (w w1 w2 : World) :
  run tr1 w = Some w1 -> run tr2 w1 = Some w2 -> run (tr1 ++ tr2) w = Some w2.
Proof.
  revert w. induction tr1 as [ | e tr1 IH]; cbn; intros w H1 H2.
  - inversion H1; subst. exact H2.
  - destruct (step e w) as [w' | ]; [|discriminate]. eauto.
Qed.

Lemma splice_expired_all (now interval : Z) (msgs : list Z) :
  Forall (fun m => m <= now - interval) msgs ->
  splice_expired now interval msgs = [].
Proof.
  rewrite splice_expired_skipn.
  induction 1 as [ | m rest Hm _ IH]; cbn; [reflexivity|].
  destruct (Z.gtb_spec m (now - interval)); [lia | exact IH].
Qed.

Lemma drain_when_free (maxC rate : number) (mc mr : option Z) (now now' : Z) (w : World) :
  ceiling maxC mc -> ceiling rate mr -> accounted maxC rate w ->
  executing w = [] -> clock w + 1000 <= now ->
  pending (transport w) <> [] ->
  snd (_checkRatedQueue now now' (transport w)) <> [].
Proof.
  intros Bc Br [Hm Hr Hi Hc _ Hp _] Hex Hnow Hq Hidle.
  apply (_checkRatedQueue_idle_iff now now' (transport w)) in Hidle.
  rewrite Hex in Hc. cbn in Hc.
  destruct Hidle as [Hge | [Hno | Hempty]]; [| |contradiction].
  - rewrite Hm, Hc in Hge. destruct mc as [m | ]; cbn in Bc.
    + destruct Bc as (Hpos & _ & Bge & _). rewrite Bge in Hge.
      apply Z.leb_le in Hge. lia.
    + rewrite Bc in Hge. discriminate.
  - destruct (_checkSendingRate_checked now (transport w)) as [_ _ _ Hl Hv _].
    rewrite Hno, Hl, Hi, Hr in Hv.
    rewrite splice_expired_all in Hv.
    + cbn in Hv. destruct mr as [m | ]; cbn in Br.
      * destruct Br as (Hpos & Blt & _). unfold of_nat in Hv. cbn in Hv.
        rewrite Blt in Hv. symmetry in Hv. apply Z.ltb_ge in Hv. lia.
      * rewrite Br in Hv. discriminate.
    + apply Forall_le_weaken with (a := clock w); [lia | assumption].
Qed.

Lemma callbacks_run_by_setImmediate (e : Event) (w w' : World) :
  step e w = Some w' ->
  invoked w' = invoked w \/
  exists c rest,
    e = RunImmediate /\ immediates w = c :: rest /\ invoked w' = invoked w ++ [c].
Proof.
  intros Hstep. destruct e as [now now' j | now now' i o | now now' | ].
  - apply step_CallSend in Hstep as (_ & _ & ->). now left.
  - apply step_ExecutorDone in Hstep as (j & _ & _ & _ & ->). now left.
  - apply step_TimerFires in Hstep as (_ & _ & _ & ->). now left.
  - apply step_RunImmediate in Hstep as (c & rest & Hi & ->).
    right. exists c, rest. auto.
Qed.

Lemma map_adm_job_admission (r : Route) (now' : Z) (l : list Job) :
  map adm_job (map (admission r now') l) = l.
Proof. induction l as [ | j l IH]; cbn; [reflexivity | now rewrite IH]. Qed.

Lemma unreported_step (e : Event) (w w' : World) :
  match e with ExecutorDone _ _ _ _ => False | _ => True end ->
  invoked w = [] /\ immediates w = [] /\ executing w = map adm_job (admitted w) ->
  step e w = Some w' ->
  invoked w' = [] /\ immediates w' = [] /\ executing w' = map adm_job (admitted w').
Proof.
  intros He (Hv & Hi & Hx) Hstep.
  destruct e as [now now' j | now now' i o | now now' | ]; [| contradiction | |].
  - apply step_CallSend in Hstep as (_ & _ & ->). cbn.
    rewrite map_app, map_adm_job_admission, Hx. auto.
  - apply step_TimerFires in Hstep as (_ & _ & _ & ->). cbn.
    rewrite map_app, map_adm_job_admission, Hx. auto.
  - apply step_RunImmediate in Hstep as (c & rest & Hc & _). congruence.
Qed.

Lemma unreported_run (tr : list Event) (w w' : World) :
  no_report tr = true ->
  invoked w = [] /\ immediates w = [] /\ executing w = map adm_job (admitted w) ->
  run tr w = Some w' ->
  invoked w' = [] /\ immediates w' = [] /\ executing w' = map adm_job (admitted w').
Proof.
  revert w. induction tr as [ | e tr IH]; cbn; intros w Hno Hw Hrun.
  - now inversion Hrun; subst.
  - apply andb_true_iff in Hno as [He Hrest].
    destruct (step e w) as [w1 | ] eqn:Hstep; [|discriminate].
    apply (IH w1 Hrest); [|exact Hrun].
    apply (unreported_step e w w1); auto. destruct e; auto. discriminate.
Qed.

(** C6 does not hold of the code: a callback is invoked only after
    [_send] has called the closure of its job, and [_send] does not always
    call it (a job whose composer fails is never reported, see C8).  From
    a new transport, over any calls of [send], timer firings and
    [setImmediate] turns in which no closure is called, no callback is
    ever invoked or scheduled, however long the event loop runs, and every
    job handed to [_send] keeps its connection. *)
Theorem C6_unreported_job_is_never_called_back
    (stn : string -> number) (options : option Options) (epoch : Z)
    (tr : list Event) (w : World) :
  no_report tr = true ->
  run tr (boot (constructor stn options) epoch) = Some w ->
  invoked w = [] /\ immediates w = [] /\
  executing w = map adm_job (admitted w) /\
  connections (transport w) = Z.of_nat (length (admitted w)).
Proof.
  intros Hno Hrun.
  assert (H0 : invoked (boot (constructor stn options) epoch) = [] /\
               immediates (boot (constructor stn options) epoch) = [] /\
               executing (boot (constructor stn options) epoch)
               = map adm_job (admitted (boot (constructor stn options) epoch)))
    by (repeat split).
  destruct (unreported_run tr _ w Hno H0 Hrun) as (Hv & Hi & Hx).
  repeat split; auto.
  assert (H : started_from stn options w) by (exists epoch, tr; exact Hrun).
  apply started_from_reachable, reachable_accounted in H.
  destruct H as [_ _ _ Hc _ _ _]. rewrite Hc, Hx. now rewrite length_map.
Qed.

(** A and B are submitted under a rate of one per second and the recheck
    timer fires for a second, C is submitted: a thousand turns of the event
    loop, and no callback has run. *)
Lemma C6_unreported_job_is_never_called_back_witness :
  no_report overtaking_trace = true /\
  run overtaking_trace (boot (constructor no_parser (Some one_per_second)) 0)
    = Some overtaken_world /\
  invoked overtaken_world = [] /\
  map fst (submitted overtaken_world) = [jobA; jobB; jobC].
Proof.
  assert (Hno : no_report overtaking_trace = true) by (vm_compute; reflexivity).
  assert (Hrun : run overtaking_trace
                   (boot (constructor no_parser (Some one_per_second)) 0)
                 = Some overtaken_world) by (vm_compute; reflexivity).
  split; [exact Hno|]. split; [exact Hrun|].
  split; [|reflexivity].
  apply (C6_unreported_job_is_never_called_back no_parser (Some one_per_second) 0
           overtaking_trace overtaken_world Hno Hrun).
Defined.

Lemma C10_missing_ceiling_is_unbounded_witness :
  no_ceiling (Number no_parser (option_maxConnections (Some one_per_second))) /\
  maxConnections (constructor no_parser (Some one_per_second)) = PosInf.
Proof.
  split; [left; reflexivity|].
  apply (proj1 (C10_missing_ceiling_is_unbounded no_parser (Some one_per_second))).
  left. reflexivity.
Defined.

(** * Further properties of the scheduler *)

(** ** One admission check, and the next one *)

Lemma splice_expired_idem (now interval : Z) (msgs : list Z) :
  splice_expired now interval (splice_expired now interval msgs) =
  splice_expired now interval msgs.
Proof.
  pose proof (splice_expired_head now interval msgs) as H.
  destruct (splice_expired now interval msgs) as [ | m rest]; [reflexivity|].
  unfold splice_expired. cbn.
  destruct (Z.gtb_spec m (now - interval)); [reflexivity | lia].
Qed.

(** X5: asking again at the same instant changes nothing: the second
    [_checkSendingRate] gives the verdict, the log and the timer of the
    first. *)
Theorem X5_check_twice_is_check_once (now : Z) (t : SESTransport) :
  _checkSendingRate now (snd (_checkSendingRate now t)) = _checkSendingRate now t.
Proof.
  unfold _checkSendingRate. cbn.
  destruct (JS.lt (of_nat (length (splice_expired now (rateInterval t) (rateMessages t))))
                  (sendingRate t)) eqn:E; cbn;
    rewrite splice_expired_idem, E; reflexivity.
Qed.

Lemma splice_expired_unchanged (now interval oldest : Z) (rest : list Z) :
  now - interval < oldest ->
  splice_expired now interval (oldest :: rest) = oldest :: rest.
Proof.
  intros H. unfold splice_expired. cbn.
  destruct (Z.gtb_spec oldest (now - interval)); [reflexivity | lia].
Qed.

Lemma splice_expired_drops_head (now interval oldest : Z) (rest : list Z) :
  oldest <= now - interval ->
  (length (splice_expired now interval (oldest :: rest)) <= length rest)%nat.
Proof.
  intros H. rewrite splice_expired_skipn. cbn.
  destruct (Z.gtb_spec oldest (now - interval)); [lia|].
  cbn. rewrite length_skipn. lia.
Qed.

Lemma refusal_then (maxC rate : number) (mr : option Z) (w : World)
    (now now' oldest : Z) (rest : list Z) :
  ceiling rate mr -> reachable maxC rate w ->
  fst (_checkSendingRate now (transport w)) = false ->
  rateMessages (snd (_checkSendingRate now (transport w))) = oldest :: rest ->
  (fst (_checkSendingRate now' (snd (_checkSendingRate now (transport w)))) = true
   <-> oldest + 1000 <= now').
Proof.
  intros Br H Hno Hlog.
  pose proof (reachable_accounted _ _ _ H) as [_ Hr Hi _ _ _ _].
  pose proof (reachable_within _ _ None mr w I (ceiling_bounds _ _ Br) H) as [_ Hl _].
  destruct (_checkSendingRate_checked now (transport w))
    as [(_ & Qr & Qi) _ _ Ql Qv _].
  set (t1 := snd (_checkSendingRate now (transport w))) in *.
  rewrite Hno, Hr in Qv. rewrite Hi in Ql.
  destruct (_checkSendingRate_checked now' t1) as [_ _ _ Ql' Qv' _].
  rewrite Qr, Hr in Qv'. rewrite Qi, Hi, Hlog in Ql'. rewrite Qv', Ql'.
  pose proof (splice_expired_length now 1000 (rateMessages (transport w))) as Hlen.
  rewrite <- Ql, Hlog in Hlen. rewrite Hlog in Qv.
  destruct mr as [m | ]; cbn in Br.
  - destruct Br as (_ & Blt & _). specialize (Hl m eq_refl).
    unfold of_nat in *. rewrite Blt in Qv. rewrite Blt.
    symmetry in Qv. apply Z.ltb_ge in Qv. rewrite Z.ltb_lt.
    cbn [length] in *.
    destruct (Z_le_gt_dec (oldest + 1000) now') as [Hdue | Hearly].
    + pose proof (splice_expired_drops_head now' 1000 oldest rest ltac:(lia)).
      split; [intros _; exact Hdue | intros _; lia].
    + rewrite splice_expired_unchanged by lia. cbn [length]. split; lia.
  - rewrite Br in Qv. discriminate.
Qed.

(** X6: after a refusal on rate nothing but time reopens the window: with
    [oldest] the first entry left in [rateMessages], a later check succeeds
    exactly when the clock has reached [oldest + 1000]. *)
Theorem X6_refused_until_oldest_expires
    (stn : string -> number) (options : option Options) (w : World)
    (now now' oldest : Z) (rest : list Z) :
  ceiling_ok (sendingRate (constructor stn options)) = true ->
  started_from stn options w ->
  fst (_checkSendingRate now (transport w)) = false ->
  rateMessages (snd (_checkSendingRate now (transport w))) = oldest :: rest ->
  (fst (_checkSendingRate now' (snd (_checkSendingRate now (transport w)))) = true
   <-> oldest + 1000 <= now').
Proof.
  intros Hok H. apply started_from_reachable in H.
  destruct (ceiling_ok_ceiling _ Hok) as (mr & Br).
  exact (refusal_then _ _ mr w now now' oldest rest Br H).
Qed.

Lemma X6_refused_until_oldest_expires_witness :
  ceiling_ok (sendingRate (constructor no_parser (Some two_per_second))) = true /\
  started_from no_parser (Some two_per_second) busy_world /\
  fst (_checkSendingRate 10 (transport busy_world)) = false /\
  rateMessages (snd (_checkSendingRate 10 (transport busy_world))) = [0; 1] /\
  (fst (_checkSendingRate 999 (snd (_checkSendingRate 10 (transport busy_world)))) = true
   <-> 0 + 1000 <= 999).
Proof.
  split; [reflexivity|]. split; [exact busy_world_started|].
  split; [reflexivity|]. split; [reflexivity|].
  apply (X6_refused_until_oldest_expires no_parser (Some two_per_second)
           busy_world 10 999 0 [1]);
    [reflexivity | exact busy_world_started | reflexivity | reflexivity].
Defined.

(** ** What [send] does with a job *)

(** X7: [send] either starts its job at once or appends it to the end of
    [pending], never both and never anything else: it starts the job exactly
    when a connection is free and [_checkSendingRate] agrees, and then no
    recheck timer is left outstanding; otherwise [connections] is unchanged
    and the jobs already waiting keep their places ahead of it. *)
Theorem X7_send_starts_or_appends (now now' : Z) (j : Job) (t : SESTransport) :
  (snd (send now now' j t) = [j] \/ snd (send now now' j t) = []) /\
  (snd (send now now' j t) = [j] <->
   JS.ge (of_Z (connections t)) (maxConnections t) = false /\
   fst (_checkSendingRate now t) = true) /\
  (snd (send now now' j t) = [j] ->
   pending (fst (send now now' j t)) = pending t /\
   connections (fst (send now now' j t)) = connections t + 1 /\
   sendingRateTTL (fst (send now now' j t)) = None) /\
  (snd (send now now' j t) = [] ->
   pending (fst (send now now' j t)) = pending t ++ [j] /\
   connections (fst (send now now' j t)) = connections t).
Proof.
  unfold send.
  destruct (JS.ge (of_Z (connections t)) (maxConnections t)) eqn:Hroom; cbn.
  - repeat split; auto; try discriminate. intros [H _]. discriminate.
  - pose proof (_checkSendingRate_checked now t) as [_ Hc Hp _ _ Ht].
    destruct (_checkSendingRate now t) as [ok t1]. cbn in *.
    destruct ok; cbn.
    + repeat split; auto; try discriminate. lia.
    + repeat split; auto; try discriminate; try congruence.
      intros [_ H]. discriminate.
Qed.

(** ** Bookkeeping that holds for every configuration *)

(** X8: [connections] is exactly the number of jobs handed to [_send] whose
    callback has not been called yet, whatever the options were. *)
Theorem X8_connections_counts_jobs_in_flight
    (stn : string -> number) (options : option Options) (w : World) :
  started_from stn options w ->
  connections (transport w) = Z.of_nat (length (executing w)).
Proof.
  intros H. apply started_from_reachable, reachable_accounted in H.
  now destruct H.
Qed.

Lemma X8_connections_counts_jobs_in_flight_witness :
  started_from no_parser (Some two_per_second) busy_world /\
  connections (transport busy_world) = Z.of_nat (length (executing busy_world)).
Proof.
  split; [exact busy_world_started|].
  apply (X8_connections_counts_jobs_in_flight no_parser (Some two_per_second)).
  exact busy_world_started.
Defined.

Lemma In_map_app_split {A : Type} (f : A -> Z) (l : list A) (l1 l2 : list Z) (a : A) :
  map f l = l1 ++ l2 -> In a l -> In (f a) l1 \/ In (f a) l2.
Proof.
  intros E Hin. apply in_app_or. rewrite <- E. now apply in_map.
Qed.

(** X9: the rate log never undercounts: every admission whose timestamp is
    less than a window old is still in [rateMessages], and every entry of
    [rateMessages] is the timestamp of an admission. *)
Theorem X9_rate_log_keeps_recent_admissions
    (stn : string -> number) (options : option Options) (w : World) :
  started_from stn options w ->
  (forall a, In a (admitted w) -> clock w - 1000 < adm_time a ->
             In (adm_time a) (rateMessages (transport w))) /\
  (forall m, In m (rateMessages (transport w)) ->
             exists a, In a (admitted w) /\ adm_time a = m).
Proof.
  intros H. apply started_from_reachable, reachable_accounted in H.
  destruct H as [_ _ _ _ _ _ (dropped & Hh & Hd)]. split.
  - intros a Ha Hnew.
    destruct (In_map_app_split adm_time _ _ _ a Hh Ha) as [Hin | Hin]; [|exact Hin].
    rewrite Forall_forall in Hd. specialize (Hd _ Hin). lia.
  - intros m Hm.
    assert (Hin : In m (map adm_time (admitted w))).
    { rewrite Hh. apply in_or_app. now right. }
    apply in_map_iff in Hin as (a & Ea & Ha). exists a. auto.
Qed.

Lemma X9_rate_log_keeps_recent_admissions_witness :
  started_from no_parser (Some two_per_second) busy_world /\
  (forall a, In a (admitted busy_world) -> clock busy_world - 1000 < adm_time a ->
             In (adm_time a) (rateMessages (transport busy_world))).
Proof.
  split; [exact busy_world_started|].
  apply (X9_rate_log_keeps_recent_admissions no_parser (Some two_per_second)).
  exact busy_world_started.
Defined.

(** ** Nothing waits without a wake-up *)

(** X3: with [maxConnections] a positive integer or unbounded, whenever a
    job is waiting in [pending] there is a job in flight or an outstanding
    recheck timer. *)
Theorem X3_waiting_job_has_a_wakeup
    (stn : string -> number) (options : option Options) (w : World) :
  ceiling_ok (maxConnections (constructor stn options)) = true ->
  started_from stn options w ->
  pending (transport w) <> [] ->
  executing w <> [] \/ sendingRateTTL (transport w) <> None.
Proof.
  intros Hok H. apply started_from_reachable in H.
  destruct (ceiling_ok_ceiling _ Hok) as (mc & Bc).
  exact (reachable_live _ _ mc w Bc H).
Qed.

Lemma X3_waiting_job_has_a_wakeup_witness :
  ceiling_ok (maxConnections (constructor no_parser (Some two_per_second))) = true /\
  started_from no_parser (Some two_per_second) busy_world /\
  pending (transport busy_world) <> [] /\
  (executing busy_world <> [] \/ sendingRateTTL (transport busy_world) <> None).
Proof.
  split; [reflexivity|]. split; [exact busy_world_started|].
  split; [discriminate|].
  apply (X3_waiting_job_has_a_wakeup no_parser (Some two_per_second));
    [reflexivity | exact busy_world_started | discriminate].
Defined.

(** ** The outstanding recheck timer *)

Lemma timer_sound_unarmed (mr : option Z) (t : SESTransport) :
  sendingRateTTL t = None -> timer_sound mr t.
Proof. intros E h Hh. congruence. Qed.

Lemma timer_sound_refused (rate : number) (mr : option Z) (now : Z)
    (t t' : SESTransport) :
  ceiling rate mr -> sendingRate t = rate ->
  (forall m, mr = Some m -> Z.of_nat (length (rateMessages t)) <= m) ->
  timer_sound mr t -> refused_on now t t' -> timer_sound mr t'.
Proof.
  intros Br Hr Hl Hs [(_ & Qr & _) _ _ Hcause].
  destruct Hcause as [(_ & Ht & Hlog) | (_ & Hlog & Hfull & Ht)].
  - intros h Hh. rewrite Ht in Hh. rewrite Hlog, Qr. auto.
  - pose proof (splice_expired_length now (rateInterval t) (rateMessages t)) as Hlen.
    rewrite <- Hlog in Hlen.
    intros h Hh. rewrite Ht in Hh. inversion Hh; subst h.
    rewrite Qr. split; [|split; [exact Hfull|]].
    + rewrite Hr in Hfull.
      destruct (rateMessages t') as [ | oldest rest].
      * exfalso. destruct mr as [m | ]; cbn in Br.
        -- destruct Br as (Hpos & Blt & _).
           unfold of_nat in Hfull. rewrite Blt in Hfull.
           apply Z.ltb_ge in Hfull. cbn in Hfull. lia.
        -- rewrite Br in Hfull. discriminate.
      * unfold recheck_at. rewrite timeout_argument_of_Z.
        eexists. split; [reflexivity | lia].
    + intros m E. subst mr. cbn in Br. destruct Br as (_ & Blt & _).
      specialize (Hl m eq_refl). rewrite Hr in Hfull.
      unfold of_nat in Hfull. rewrite Blt in Hfull. apply Z.ltb_ge in Hfull. lia.
Qed.

Lemma timer_sound_drain (maxC rate : number) (mr : option Z) (now now' : Z) (w : World) :
  ceiling rate mr -> accounted maxC rate w -> within None mr w ->
  timer_sound mr (transport w) ->
  timer_sound mr (fst (_checkRatedQueue now now' (transport w))).
Proof.
  intros Br [_ Hr _ _ _ _ _] [_ Hl _] Hs.
  pose proof (_checkRatedQueue_cases now now' (transport w)) as H. cbn in H.
  destruct (_checkRatedQueue now now' (transport w)) as [t' started]. cbn in *.
  destruct H as [(next & _ & _ & Hadm) | (_ & _ & [Href | Hidle])].
  - apply timer_sound_unarmed. now destruct Hadm.
  - now apply (timer_sound_refused rate mr now (transport w)).
  - apply timer_sound_unarmed. tauto.
Qed.

Lemma timer_sound_step (maxC rate : number) (mr : option Z) (e : Event) (w w' : World) :
  ceiling rate mr -> accounted maxC rate w -> within None mr w ->
  timer_sound mr (transport w) -> step e w = Some w' ->
  timer_sound mr (transport w').
Proof.
  intros Br Ha Hw Hs Hstep.
  destruct e as [now now' j | now now' i o | now now' | ].
  - apply step_CallSend in Hstep as (_ & _ & ->). cbn.
    destruct Ha as [_ Hr _ _ _ _ _]. destruct Hw as [_ Hl _].
    pose proof (send_cases now now' j (transport w)) as H. cbn in H.
    destruct (send now now' j (transport w)) as [t' started]. cbn in *.
    destruct H as [(_ & _ & Hadm) | (_ & _ & Href)].
    + apply timer_sound_unarmed. now destruct Hadm.
    + now apply (timer_sound_refused rate mr now (transport w)).
  - apply step_ExecutorDone in Hstep as (j & Hj & _ & _ & ->). cbn [settle transport].
    apply (timer_sound_drain maxC rate); auto using accounted_released.
    destruct Hw as [H1 H2 H3]. constructor; cbn; auto. discriminate.
  - apply step_TimerFires in Hstep as (_ & _ & _ & ->). cbn [settle transport].
    apply (timer_sound_drain maxC rate); auto using accounted_timer_consumed.
    + destruct Hw as [H1 H2 H3]. constructor; cbn; auto.
    + now apply timer_sound_unarmed.
  - apply step_RunImmediate in Hstep as (c & rest & _ & ->). exact Hs.
Qed.

Lemma reachable_timer_sound (maxC rate : number) (mr : option Z) (w : World) :
  ceiling rate mr -> reachable maxC rate w -> timer_sound mr (transport w).
Proof.
  intros Br (epoch & tr & Hrun).
  apply (run_invariant
           (fun w => accounted maxC rate w /\ within None mr w /\
                     timer_sound mr (transport w)))
    with (tr := tr) (w := boot (new_transport maxC rate) epoch); auto.
  - intros e w1 w2 (Ha & Hw & Hs) Hstep. split; [|split].
    + eapply accounted_step; eauto.
    + apply (within_step maxC rate None mr e w1); auto using ceiling_bounds. exact I.
    + apply (timer_sound_step maxC rate mr e w1); auto.
  - split; [apply accounted_boot|]. split.
    + apply within_boot; [exact I | now apply ceiling_bounds].
    + now apply timer_sound_unarmed.
Qed.

Lemma outstanding_timer (maxC rate : number) (mr : option Z) (w : World) (h : Timeout) :
  ceiling rate mr -> reachable maxC rate w ->
  sendingRateTTL (transport w) = Some h ->
  (exists d, h = SetTimeout (of_Z d) /\ d <= -20) /\
  JS.le (of_nat (length (rateMessages (transport w)))) (sendingRate (transport w)) = true /\
  JS.lt (of_nat (length (rateMessages (transport w)))) (sendingRate (transport w)) = false.
Proof.
  intros Br H Hh.
  pose proof (reachable_accounted _ _ _ H) as [_ Hr _ _ _ _ _].
  destruct (reachable_timer_sound _ _ mr w Br H h Hh) as (Hd & Hfull & Hlen).
  split; [exact Hd|]. split; [|exact Hfull].
  rewrite Hr. apply (le_ceiling rate mr); [exact Br|].
  intros k E. rewrite (Hlen k E). lia.
Qed.

(** X4: with [sendingRate] a positive integer or unbounded, a recheck timer is
    outstanding only while [rateMessages] holds exactly [sendingRate]
    entries, and the delay it was given to [setTimeout] with is an integer
    not above [-20]. *)
Theorem X4_outstanding_timer_means_full_log
    (stn : string -> number) (options : option Options) (w : World) (h : Timeout) :
  ceiling_ok (sendingRate (constructor stn options)) = true ->
  started_from stn options w ->
  sendingRateTTL (transport w) = Some h ->
  (exists d, h = SetTimeout (of_Z d) /\ d <= -20) /\
  JS.le (of_nat (length (rateMessages (transport w)))) (sendingRate (transport w)) = true /\
  JS.lt (of_nat (length (rateMessages (transport w)))) (sendingRate (transport w)) = false.
Proof.
  intros Hok H Hh. apply started_from_reachable in H.
  destruct (ceiling_ok_ceiling _ Hok) as (mr & Br).
  exact (outstanding_timer _ _ mr w h Br H Hh).
Qed.

Lemma X4_outstanding_timer_means_full_log_witness :
  ceiling_ok (sendingRate (constructor no_parser (Some two_per_second))) = true /\
  started_from no_parser (Some two_per_second) busy_world /\
  sendingRateTTL (transport busy_world) = Some (SetTimeout (of_Z (-996))) /\
  JS.lt (of_nat (length (rateMessages (transport busy_world))))
        (sendingRate (transport busy_world)) = false.
Proof.
  split; [reflexivity|]. split; [exact busy_world_started|].
  split; [reflexivity|].
  apply (X4_outstanding_timer_means_full_log no_parser (Some two_per_second)
           busy_world (SetTimeout (of_Z (-996))));
    [reflexivity | exact busy_world_started | reflexivity].
Defined.

(** ** Without a rate ceiling *)

Lemma ge_monotone (a b : Z) (n : number) :
  a <= b -> JS.ge (of_Z a) n = true -> JS.ge (of_Z b) n = true.
Proof.
  unfold JS.ge, of_Z. destruct n as [ | q | | ]; auto.
  intros Hab H. apply Qle_bool_iff in H. apply Qle_bool_iff.
  eapply Qle_trans; [exact H|]. now rewrite <- Zle_Qle.
Qed.

Lemma unbounded_drain (now now' : Z) (w : World) :
  sendingRate (transport w) = PosInf ->
  slot_owed w -> globally_fifo w ->
  let w' := settle Queued now' (_checkRatedQueue now now' (transport w)) w in
  sendingRate (transport w') = PosInf /\ work_conserving w' /\ globally_fifo w'.
Proof.
  intros Hrate Hslot Hfifo. cbn.
  pose proof (_checkRatedQueue_cases now now' (transport w)) as H. cbn in H.
  destruct (_checkRatedQueue now now' (transport w)) as [t' started]. cbn in H.
  unfold work_conserving, globally_fifo, slot_owed in *. cbn.
  destruct H as [(next & -> & Hp & Hadm) | (-> & Hp & [Href | Hidle])].
  - destruct Hadm as [(Qm & Qr & _) _ _ Qc _ _]. split; [congruence|]. split.
    + intros Hne. rewrite Qc, Qm. apply Hslot. rewrite Hp. discriminate.
    + cbn. rewrite map_app. cbn. rewrite <- app_assoc. cbn.
      rewrite <- Hp. exact Hfifo.
  - destruct Href as [(Qm & Qr & _) Qc _ Hcause]. split; [congruence|].
    destruct Hcause as [(Hge & _) | (_ & _ & Hfull & _)].
    + split; [intros _; now rewrite Qc, Qm|].
      cbn. rewrite app_nil_r, Hp. exact Hfifo.
    + rewrite Hrate in Hfull. discriminate.
  - destruct Hidle as (Hempty & (Qm & Qr & _) & _). split; [congruence|]. split.
    + intros Hne. congruence.
    + cbn. rewrite app_nil_r, Hp. exact Hfifo.
Qed.

Lemma unbounded_step (e : Event) (w w' : World) :
  sendingRate (transport w) = PosInf ->
  work_conserving w -> globally_fifo w -> step e w = Some w' ->
  sendingRate (transport w') = PosInf /\ work_conserving w' /\ globally_fifo w'.
Proof.
  intros Hrate Hwc Hfifo Hstep.
  destruct e as [now now' j | now now' i o | now now' | ].
  - apply step_CallSend in Hstep as (_ & _ & ->).
    pose proof (send_cases now now' j (transport w)) as H. cbn in H.
    destruct (send now now' j (transport w)) as [t' started]. cbn in H.
    unfold work_conserving, globally_fifo in *. cbn.
    destruct H as [(-> & Hp & Hadm) | (-> & Hp & Href)].
    + destruct Hadm as [(Qm & Qr & _) Hroom _ _ _ _]. split; [congruence|].
      assert (Hempty : pending (transport w) = []).
      { destruct (pending (transport w)) eqn:E; [reflexivity|].
        rewrite Hwc in Hroom; [discriminate | discriminate]. }
      split; [intros Hne; congruence|].
      cbn. rewrite !map_app, Hp, Hempty, app_nil_r. cbn.
      rewrite Hempty, app_nil_r in Hfifo. now rewrite Hfifo.
    + destruct Href as [(Qm & Qr & _) Qc _ Hcause]. split; [congruence|].
      destruct Hcause as [(Hge & _) | (_ & _ & Hfull & _)].
      * split; [intros _; now rewrite Qc, Qm|].
        cbn. rewrite app_nil_r, map_app, Hp, app_assoc, Hfifo. reflexivity.
      * rewrite Hrate in Hfull. discriminate.
  - apply step_ExecutorDone in Hstep as (j & Hj & _ & _ & ->).
    apply unbounded_drain; auto.
    intros Hne. cbn in *. rewrite Z.sub_add. now apply Hwc.
  - apply step_TimerFires in Hstep as (_ & _ & _ & ->).
    apply unbounded_drain; auto.
    intros Hne. cbn in *.
    apply (ge_monotone (connections (transport w))); [lia | now apply Hwc].
  - apply step_RunImmediate in Hstep as (c & rest & _ & ->). auto.
Qed.

Lemma reachable_unbounded (maxC : number) (w : World) :
  reachable maxC PosInf w -> work_conserving w /\ globally_fifo w.
Proof.
  intros (epoch & tr & Hrun).
  apply (run_invariant
           (fun w => sendingRate (transport w) = PosInf /\
                     work_conserving w /\ globally_fifo w))
    with (tr := tr) (w := boot (new_transport maxC PosInf) epoch); auto.
  - intros e w1 w2 (Hr & Hwc & Hf). now apply unbounded_step.
  - split; [reflexivity|]. split; [intros H; now cbn in H | reflexivity].
Qed.

Lemma no_ceiling_unbounded (stn : string -> number) (options : option Options) :
  no_ceiling (Number stn (option_sendingRate options)) ->
  sendingRate (constructor stn options) = PosInf.
Proof.
  intros Hno. rewrite constructor_sendingRate.
  apply no_ceiling_falsy in Hno. unfold or_else. now rewrite Hno.
Qed.

(** X1: when [sendingRate] is left out, admission is first-in first-out
    across both routes, whatever [maxConnections] is: the jobs handed to
    [_send] so far, in that order, followed by the jobs still pending, are
    the submitted jobs in submission order. *)
Theorem X1_without_rate_admission_is_fifo
    (stn : string -> number) (options : option Options) (w : World) :
  no_ceiling (Number stn (option_sendingRate options)) ->
  started_from stn options w ->
  map adm_job (admitted w) ++ pending (transport w) = map fst (submitted w).
Proof.
  intros Hno H. apply started_from_reachable in H.
  rewrite (no_ceiling_unbounded _ _ Hno) in H.
  apply (reachable_unbounded _ w H).
Qed.

Lemma X1_without_rate_admission_is_fifo_witness :
  no_ceiling (Number no_parser (option_sendingRate (Some one_at_a_time))) /\
  started_from no_parser (Some one_at_a_time) serial_world /\
  map adm_job (admitted serial_world) ++ pending (transport serial_world)
    = [jobA; jobB; jobC].
Proof.
  split; [left; reflexivity|].
  assert (H : started_from no_parser (Some one_at_a_time) serial_world)
    by (exists 0, serial_trace; vm_compute; reflexivity).
  split; [exact H|].
  rewrite (X1_without_rate_admission_is_fifo no_parser (Some one_at_a_time)
             serial_world (or_introl eq_refl) H).
  reflexivity.
Defined.

(** X2: when [sendingRate] is left out, a job is kept waiting only while
    [connections >= maxConnections]: no connection idles over a non-empty
    queue. *)
Theorem X2_without_rate_no_idle_connection
    (stn : string -> number) (options : option Options) (w : World) :
  no_ceiling (Number stn (option_sendingRate options)) ->
  started_from stn options w ->
  pending (transport w) <> [] ->
  JS.ge (of_Z (connections (transport w))) (maxConnections (transport w)) = true.
Proof.
  intros Hno H. apply started_from_reachable in H.
  rewrite (no_ceiling_unbounded _ _ Hno) in H.
  apply (reachable_unbounded _ w H).
Qed.

Lemma X2_without_rate_no_idle_connection_witness :
  no_ceiling (Number no_parser (option_sendingRate (Some one_at_a_time))) /\
  (exists tr, run tr (boot (constructor no_parser (Some one_at_a_time)) 0)
              = Some serial_world) /\
  pending (transport serial_world) = [jobC] /\
  JS.ge (of_Z (connections (transport serial_world)))
        (maxConnections (transport serial_world)) = true.
Proof.
  split; [left; reflexivity|].
  split; [exists serial_trace; vm_compute; reflexivity|].
  split; [reflexivity|].
  apply (X2_without_rate_no_idle_connection no_parser (Some one_at_a_time));
    [left; reflexivity | exists 0, serial_trace; vm_compute; reflexivity | discriminate].
Defined.

(** * The rest of [_send] *)

(** ** The recipients named in the log line *)

(** X11: the log line never names more than three entries.  A missing
    or empty [envelope.to] gives no entry and a single address gives that
    one; up to three recipients are named as they are; of more than three
    the first two are named and one summary entry counts all the others. *)
Theorem X11_log_names_at_most_three (to : EnvelopeTo) :
  (length (logged_recipients to) <= 3)%nat /\
  ((length (concat_to to) <= 3)%nat -> logged_recipients to = concat_to to) /\
  ((3 < length (concat_to to))%nat ->
   logged_recipients to =
     firstn 2 (concat_to to)
     ++ [("...and " ++ decimal (length (concat_to to) - 2) ++ " more")%string]) /\
  logged_recipients ToMissing = [] /\
  logged_recipients (ToOne EmptyString) = [] /\
  (forall address, address <> EmptyString ->
     logged_recipients (ToOne address) = [address]) /\
  (forall addresses, (length addresses <= 3)%nat ->
     logged_recipients (ToList addresses) = addresses) /\
  (forall addresses, (3 < length addresses)%nat ->
     logged_recipients (ToList addresses) =
       firstn 2 addresses
       ++ [("...and "
            ++ NilZero.string_of_uint (Nat.to_uint (length addresses - 2))
            ++ " more")%string]).
Proof.
  assert (Hfew : forall t, (length (concat_to t) <= 3)%nat ->
                           logged_recipients t = concat_to t).
  { intros t H. unfold logged_recipients.
    destruct (Nat.ltb_spec 3 (length (concat_to t))); [lia | reflexivity]. }
  assert (Hmany : forall t, (3 < length (concat_to t))%nat ->
            logged_recipients t =
              firstn 2 (concat_to t)
              ++ [("...and " ++ decimal (length (concat_to t) - 2) ++ " more")%string]).
  { intros t H. unfold logged_recipients.
    destruct (Nat.ltb_spec 3 (length (concat_to t))); [|lia].
    now rewrite length_skipn. }
  split; [|split; [apply Hfew | split; [apply Hmany|]]].
  - destruct (Nat.le_gt_cases (length (concat_to to)) 3) as [H | H].
    + now rewrite Hfew.
    + rewrite Hmany by exact H. rewrite length_app, length_firstn. cbn [length]. lia.
  - split; [reflexivity|]. split; [reflexivity|]. split; [|split].
    + intros address Hne. destruct address as [ | c r]; [contradiction | reflexivity].
    + intros addresses H. now apply Hfew.
    + intros addresses H. now apply (Hmany (ToList addresses)).
Qed.

(** ** DKIM fields left unsigned *)

Lemma string_append_assoc (a b c : string) :
  ((a ++ b) ++ c = a ++ (b ++ c))%string.
Proof. induction a as [ | x a IH]; cbn; [reflexivity | now rewrite IH]. Qed.

Lemma append_nonempty (s : string) :
  (s ++ ":date:message-id")%string <> EmptyString.
Proof. destruct s; discriminate. Qed.

(** X12: after the first statements of [getRawMessage], [skipFields] is
    always a string that ends in [date:message-id].  A non-empty string the
    caller had put there is kept in front of it; a missing [_dkim], and a
    missing, empty or non-string [skipFields], give exactly
    [date:message-id]; the other DKIM properties are untouched.  The update
    is not idempotent: composing the same mail again appends the suffix
    again. *)
Theorem X12_dkim_skips_date_and_id (dkim : option Dkim) :
  exists fields,
    skipFields (skip_date_and_id dkim) = String_ fields /\
    (exists kept, fields = (kept ++ "date:message-id")%string) /\
    (forall d s, dkim = Some d -> skipFields d = String_ s -> s <> EmptyString ->
                 fields = (s ++ ":date:message-id")%string) /\
    (forall d, dkim = Some d ->
               (forall s, skipFields d = String_ s -> s = EmptyString) ->
               fields = "date:message-id"%string) /\
    (dkim = None -> fields = "date:message-id"%string) /\
    dkim_other (skip_date_and_id dkim)
      = match dkim with Some d => dkim_other d | None => [] end /\
    skipFields (skip_date_and_id (Some (skip_date_and_id dkim)))
      = String_ (fields ++ ":date:message-id").
Proof.
  unfold skip_date_and_id.
  destruct dkim as [[fields other] | ]; cbn.
  - destruct fields as [ | | b | n | s]; cbn;
      try (exists "date:message-id"%string; repeat split; auto; try discriminate;
           [exists EmptyString; reflexivity | intros d s0 E Es; inversion E; subst; discriminate]).
    + destruct b; cbn;
        (exists "date:message-id"%string; repeat split; auto; try discriminate;
         [exists EmptyString; reflexivity | intros d s0 E Es; inversion E; subst; discriminate]).
    + destruct (truthy n); cbn;
        (exists "date:message-id"%string; repeat split; auto; try discriminate;
         [exists EmptyString; reflexivity | intros d s0 E Es; inversion E; subst; discriminate]).
    + destruct s as [ | c s]; cbn.
      * exists "date:message-id"%string. repeat split; auto; try discriminate.
        -- exists EmptyString. reflexivity.
        -- intros d s0 E Es Hne. inversion E; subst. cbn in Es.
           inversion Es; subst. contradiction.
      * exists (String c s ++ ":date:message-id")%string.
        repeat split; auto; try discriminate.
        -- exists (String c s ++ ":")%string.
           now rewrite string_append_assoc.
        -- intros d s0 E Es Hne. inversion E; subst. cbn in Es.
           now inversion Es.
        -- intros d E Hall. inversion E; subst. cbn in Hall.
           specialize (Hall _ eq_refl). discriminate.
  - exists "date:message-id"%string. repeat split; auto; try discriminate.
    exists EmptyString. reflexivity.
Qed.

(** ** The request given to [sendRawEmail] *)

Lemma obj_get_set_same {V : Type} (key : string) (v : V) (o : Obj V) :
  obj_get key (obj_set key v o) = Some v.
Proof.
  induction o as [ | [k v0] rest IH]; cbn.
  - now rewrite String.eqb_refl.
  - destruct (String.eqb k key) eqn:E; cbn; rewrite E; [reflexivity | exact IH].
Qed.

Lemma obj_get_set_other {V : Type} (key key' : string) (v : V) (o : Obj V) :
  key' <> key -> obj_get key (obj_set key' v o) = obj_get key o.
Proof.
  intros Hne. induction o as [ | [k v0] rest IH]; cbn.
  - apply String.eqb_neq in Hne. now rewrite Hne.
  - destruct (String.eqb k key') eqn:E; cbn.
    + apply String.eqb_eq in E. subst k.
      apply String.eqb_neq in Hne. now rewrite Hne.
    + destruct (String.eqb k key); [reflexivity | exact IH].
Qed.

Lemma obj_get_In {V : Type} (key : string) (v : V) (o : Obj V) :
  obj_get key o = Some v -> In key (map fst o).
Proof.
  induction o as [ | [k v0] rest IH]; cbn; [discriminate|].
  destruct (String.eqb k key) eqn:E.
  - apply String.eqb_eq in E. auto.
  - auto.
Qed.

Lemma obj_get_assign_other {V : Type} (key key' : string) (v : V) (o : Obj V) :
  key' <> key -> obj_get key (obj_assign key' v o) = obj_get key o.
Proof.
  intros Hne. unfold obj_assign.
  destruct (String.eqb key' "__proto__"); [reflexivity|].
  now apply obj_get_set_other.
Qed.

Lemma obj_get_assign_proto {V : Type} (key' : string) (v : V) (o : Obj V) :
  obj_get "__proto__" (obj_assign key' v o) = obj_get "__proto__" o.
Proof.
  unfold obj_assign. destruct (String.eqb key' "__proto__") eqn:E; [reflexivity|].
  apply obj_get_set_other. now apply String.eqb_neq.
Qed.

Lemma assign_all_other {V : Type} (key : string) (options message : Obj V) :
  ~ In key (map fst options) ->
  obj_get key (fold_left (fun m kv => obj_assign (fst kv) (snd kv) m) options message)
  = obj_get key message.
Proof.
  revert message. induction options as [ | [k v] rest IH]; cbn; intros message Hout;
    [reflexivity|].
  rewrite IH by tauto. apply obj_get_assign_other. tauto.
Qed.

Lemma assign_all_proto {V : Type} (options message : Obj V) :
  obj_get "__proto__"
    (fold_left (fun m kv => obj_assign (fst kv) (snd kv) m) options message)
  = obj_get "__proto__" message.
Proof.
  revert message. induction options as [ | [k v] rest IH]; cbn; intros message;
    [reflexivity|].
  rewrite IH. apply obj_get_assign_proto.
Qed.

Lemma assign_all_same {V : Type} (key : string) (v : V) (options message : Obj V) :
  key <> "__proto__"%string ->
  NoDup (map fst options) -> obj_get key options = Some v ->
  obj_get key (fold_left (fun m kv => obj_assign (fst kv) (snd kv) m) options message)
  = Some v.
Proof.
  intros Hkey. revert message. induction options as [ | [k v0] rest IH]; cbn;
    intros message Hnd Hget; [discriminate|].
  inversion Hnd as [ | ? ? Hfresh Hrest]; subst.
  destruct (String.eqb k key) eqn:E.
  - apply String.eqb_eq in E. subst k. inversion Hget; subst v0.
    rewrite assign_all_other by exact Hfresh.
    unfold obj_assign. apply String.eqb_neq in Hkey. rewrite Hkey.
    apply obj_get_set_same.
  - now apply IH.
Qed.

(** X14: what the caller puts in [mail.data.ses] wins: every property of
    it (an object names each property once) other than [__proto__] is in
    the request with the caller's value, also [RawMessage], [Source] and
    [Destinations]; a property named [__proto__] never becomes a property
    of the request; every property the caller does not name is as the
    transport set it. *)
Theorem X14_ses_options_override_request
    (raw : Buffer) (from : string) (to : EnvelopeTo) (options : Obj SesValue) :
  NoDup (map fst options) ->
  (forall key v, key <> "__proto__"%string -> obj_get key options = Some v ->
     obj_get key (sesMessage raw from to (Some options)) = Some v) /\
  obj_get "__proto__" (sesMessage raw from to (Some options)) = None /\
  (forall key, obj_get key options = None ->
     obj_get key (sesMessage raw from to (Some options))
     = obj_get key (sesMessage raw from to None)) /\
  obj_get "RawMessage" (sesMessage raw from to None) = Some (RawMessageValue raw) /\
  obj_get "Source" (sesMessage raw from to None) = Some (SourceValue from) /\
  obj_get "Destinations" (sesMessage raw from to None) = Some (DestinationsValue to) /\
  (forall key, obj_get key (sesMessage raw from to None) <> None ->
     key = "RawMessage"%string \/ key = "Source"%string \/ key = "Destinations"%string).
Proof.
  intros Hnd. unfold sesMessage. split; [|split; [|split]].
  - intros key v Hkey Hget. now apply assign_all_same.
  - rewrite assign_all_proto. reflexivity.
  - intros key Hnone. cbn [fold_left]. apply assign_all_other.
    intros Hin. apply in_map_iff in Hin as ([k v] & Ek & Hin). cbn in Ek. subst k.
    clear Hnd. induction options as [ | [k0 v0] rest IH]; [contradiction|].
    cbn in Hnone. destruct (String.eqb k0 key) eqn:E; [discriminate|].
    destruct Hin as [Hhead | Htail]; [|now apply IH].
    inversion Hhead; subst. now rewrite String.eqb_refl in E.
  - repeat split. intros key Hsome. cbn [fold_left obj_get] in Hsome.
    destruct (String.eqb "RawMessage" key) eqn:E1;
      [apply String.eqb_eq in E1; auto|].
    destruct (String.eqb "Source" key) eqn:E2;
      [apply String.eqb_eq in E2; auto|].
    destruct (String.eqb "Destinations" key) eqn:E3;
      [apply String.eqb_eq in E3; auto|].
    contradiction.
Qed.

Lemma X14_ses_options_override_request_witness :
  NoDup (map fst [("Source"%string, CallerValue 7); ("__proto__"%string, CallerValue 8)]) /\
  obj_get "Source"
    (sesMessage [] "a@example.com" ToMissing
       (Some [("Source"%string, CallerValue 7); ("__proto__"%string, CallerValue 8)]))
  = Some (CallerValue 7).
Proof.
  assert (Hnd : NoDup (map fst [("Source"%string, CallerValue 7);
                                ("__proto__"%string, CallerValue 8)])).
  { cbn. constructor; [cbn; intros [H | []]; discriminate|].
    constructor; [intros [] | constructor]. }
  split; [exact Hnd|].
  apply (proj1 (X14_ses_options_override_request [] "a@example.com" ToMissing _ Hnd));
    [discriminate | reflexivity].
Defined.

(** ** The message id reported on success *)

Lemma has_at_iff (s : string) :
  has_at s = true <-> exists before after, s = (before ++ String "@" after)%string.
Proof.
  induction s as [ | c s IH]; cbn.
  - split; [discriminate|]. intros ([ | x before] & after & E); discriminate.
  - split.
    + intros H. apply orb_true_iff in H as [H | H].
      * apply Ascii.eqb_eq in H. subst c. exists EmptyString, s. reflexivity.
      * apply IH in H as (before & after & ->).
        exists (String c before), after. reflexivity.
    + intros ([ | x before] & after & E); cbn in E; inversion E; subst.
      * now rewrite Ascii.eqb_refl.
      * apply orb_true_iff. right. apply IH. eauto.
Qed.

Lemma has_at_append (a b : string) :
  has_at (a ++ b) = has_at a || has_at b.
Proof.
  induction a as [ | c a IH]; cbn; [reflexivity|].
  rewrite IH. now rewrite orb_assoc.
Qed.

(** X15: the reported [messageId] is the id SES returned, between angle
    brackets, and it always contains an [@]: an id that has one is left as
    it is, any other gets [@<region>.amazonses.com] appended.  The region
    is never the literal [us-east-1]: a configured [us-east-1], a missing
    configuration and a missing or empty region all give [email]; any
    other region is used as configured. *)
Theorem X15_reported_messageId_has_a_domain (config : option SesConfig) (MessageId : string) :
  exists inner,
    reported_messageId config MessageId = ("<" ++ inner ++ ">")%string /\
    has_at inner = true /\
    (has_at MessageId = true -> inner = MessageId) /\
    (has_at MessageId = false ->
     inner = (MessageId ++ "@" ++ region_name config ++ ".amazonses.com")%string) /\
    region_name config <> "us-east-1"%string /\
    (region_name None = "email"%string /\
     region_name (Some {| region := None |}) = "email"%string /\
     region_name (Some {| region := Some EmptyString |}) = "email"%string /\
     region_name (Some {| region := Some "us-east-1"%string |}) = "email"%string) /\
    (has_at MessageId = true <->
     exists before after, MessageId = (before ++ String "@" after)%string) /\
    (forall r, r <> EmptyString -> r <> "us-east-1"%string ->
               region_name (Some {| region := Some r |}) = r).
Proof.
  assert (Hregion : region_name config <> "us-east-1"%string).
  { unfold region_name.
    destruct config as [[[[ | c r] | ]] | ]; cbn [region];
      try (rewrite String.eqb_refl; discriminate).
    destruct (String.eqb (String c r) "us-east-1") eqn:E; [discriminate|].
    now apply String.eqb_neq. }
  assert (Hother : forall r, r <> EmptyString -> r <> "us-east-1"%string ->
                             region_name (Some {| region := Some r |}) = r).
  { intros r Hne Hus. unfold region_name. cbn [region].
    destruct r as [ | c r]; [contradiction|].
    apply String.eqb_neq in Hus. now rewrite Hus. }
  assert (Hat : has_at MessageId = true <->
                exists before after, MessageId = (before ++ String "@" after)%string)
    by apply has_at_iff.
  unfold reported_messageId.
  destruct (has_at MessageId) eqn:E; cbn [negb].
  - exists MessageId. split.
    + reflexivity.
    + repeat split; auto; try discriminate. apply Hat.
  - exists (MessageId ++ "@" ++ region_name config ++ ".amazonses.com")%string. split.
    + f_equal. now rewrite !string_append_assoc.
    + repeat split; auto; try discriminate; try (apply Hat).
      rewrite has_at_append. cbn. apply orb_true_r.
Qed.

(** ** The raw message *)

Lemma on_readable_spec (available chunks : list Buffer) (chunklen : nat) :
  on_readable available (chunks, chunklen)
  = (chunks ++ available, (chunklen + length (List.concat available))%nat).
Proof.
  unfold on_readable. revert chunks chunklen.
  induction available as [ | chunk rest IH]; intros chunks chunklen; cbn.
  - now rewrite app_nil_r, Nat.add_0_r.
  - rewrite IH. rewrite <- app_assoc, length_app. cbn. f_equal. lia.
Qed.

Lemma read_stream_from (events : list (list Buffer)) (chunks : list Buffer) (chunklen : nat) :
  fold_left (fun st available => on_readable available st) events (chunks, chunklen)
  = (chunks ++ List.concat events,
     (chunklen + length (List.concat (List.concat events)))%nat).
Proof.
  revert chunks chunklen. induction events as [ | available rest IH];
    intros chunks chunklen; cbn.
  - now rewrite app_nil_r, Nat.add_0_r.
  - rewrite on_readable_spec, IH. rewrite <- app_assoc, concat_app, length_app.
    f_equal. lia.
Qed.

(** X13: the buffer given to [next] is every chunk the stream delivered, in
    the order of delivery: [chunklen] is exactly their total length, so
    [Buffer.concat] neither cuts nor pads. *)
Theorem X13_raw_message_is_every_chunk (events : list (list Buffer)) :
  snd (read_stream events) = length (List.concat (fst (read_stream events))) /\
  raw_message events = List.concat (List.concat events).
Proof.
  unfold raw_message, read_stream. rewrite read_stream_from. cbn [fst snd app].
  split; [reflexivity|].
  unfold Buffer_concat. cbn [Nat.add]. rewrite Nat.sub_diag. cbn [repeat].
  rewrite app_nil_r. apply firstn_all.
Qed.

(** ** An idle transport after a window *)

(** X10: under a documented configuration, when no job is in flight and at
    least 1000 ms have gone by since the last clock reading, a call of
    [_checkRatedQueue] on a non-empty queue starts the job at its head and
    leaves the others queued in order. *)
Theorem X10_idle_transport_drains_after_a_window
    (stn : string -> number) (options : option Options) (w : World)
    (now now' : Z) (next : Job) (rest : list Job) :
  ceiling_ok (maxConnections (constructor stn options)) = true ->
  ceiling_ok (sendingRate (constructor stn options)) = true ->
  started_from stn options w ->
  executing w = [] -> clock w + 1000 <= now ->
  pending (transport w) = next :: rest ->
  snd (_checkRatedQueue now now' (transport w)) = [next] /\
  pending (fst (_checkRatedQueue now now' (transport w))) = rest.
Proof.
  intros Hmax Hrate H Hex Hnow Hq. apply started_from_reachable in H.
  destruct (ceiling_ok_ceiling _ Hmax) as (mc & Bc).
  destruct (ceiling_ok_ceiling _ Hrate) as (mr & Br).
  pose proof (reachable_accounted _ _ _ H) as Ha.
  assert (Hne : pending (transport w) <> []) by (rewrite Hq; discriminate).
  pose proof (drain_when_free _ _ mc mr now now' w Bc Br Ha Hex Hnow Hne) as Hsome.
  destruct (_checkRatedQueue_idle_iff now now' (transport w)) as (Hone & Hp & _).
  rewrite Hq in Hp.
  destruct (snd (_checkRatedQueue now now' (transport w))) as [ | j [ | j' l]];
    [contradiction | | cbn in Hone; lia].
  cbn in Hp. inversion Hp; subst. split; reflexivity.
Qed.

Lemma X10_idle_transport_drains_after_a_window_witness :
  ceiling_ok (maxConnections (constructor no_parser (Some two_per_second))) = true /\
  ceiling_ok (sendingRate (constructor no_parser (Some two_per_second))) = true /\
  started_from no_parser (Some two_per_second) stalled_world /\
  executing stalled_world = [] /\ clock stalled_world + 1000 <= 1007 /\
  pending (transport stalled_world) = [jobC] /\
  (snd (_checkRatedQueue 1007 1008 (transport stalled_world)) = [jobC] /\
   pending (fst (_checkRatedQueue 1007 1008 (transport stalled_world))) = []).
Proof.
  assert (H : started_from no_parser (Some two_per_second) stalled_world)
    by (exists 0, stalled_trace; vm_compute; reflexivity).
  split; [reflexivity|]. split; [reflexivity|]. split; [exact H|].
  split; [reflexivity|]. split; [vm_compute; discriminate|]. split; [reflexivity|].
  apply (X10_idle_transport_drains_after_a_window no_parser (Some two_per_second)
           stalled_world 1007 1008 jobC []);
    [reflexivity | reflexivity | exact H | reflexivity
    | vm_compute; discriminate | reflexivity].
Defined.
